(** * Lifecycle queues of the Aurelia runtime

    A shallow embedding of [packages/runtime/src/lifecycle.ts]: the six
    intrusive phase queues ([BoundQueue], [UnboundQueue], [AttachedQueue],
    [DetachedQueue], [MountQueue], [UnmountQueue]), the [BatchQueue] and the
    [Lifecycle] object that owns one instance of each.

    Controllers and batchables are objects compared by identity; they are
    modelled by natural-number identifiers.  The intrusive link fields
    [prevBound]/[nextBound], [prevMount]/[nextMount], ... of all controllers
    are modelled, per phase, by two finite maps from identifiers to
    identifiers: an absent key is a field holding [undefined].

    The six phase-queue classes are the same code up to the names of the
    link fields and of the callback, so their methods are modelled once,
    with the phase as an argument: [add Bound] is [BoundQueue.add],
    [remove Mount] is [MountQueue.remove], [process hooks fuel Detached] is
    [DetachedQueue.process].  [begin], [end_] and [inline] take the auto
    queue they belong to; [AttachedQueue.end] and [DetachedQueue.end] differ
    from the others in [settle]. *)

From Stdlib Require Import ZArith.
From stdpp Require Import gmap list.

Local Open Scope Z_scope.

(** ** Data model *)

(** The six lifecycle phases, named after the suffix of their link fields. *)
Inductive phase := Bound | Unbound | Attached | Detached | Mount | Unmount.

#[global] Instance phase_eq_dec : EqDecision phase.
Proof. solve_decision. Defined.

(** One intrusive queue: [head], [tail], the [depth] counter and the
    [prev<Phase>]/[next<Phase>] fields of every controller.  [depth] is a
    JavaScript number that only ever receives [++] and [--]; it is an exact
    integer in the safe-integer range.  ([MountQueue] declares a [depth] it
    never touches and [UnmountQueue] declares none; no method reads the
    field of these two.) *)
Record PhaseQueue := mkPhaseQueue {
  depth : Z;
  head : option nat;
  tail : option nat;
  prev : gmap nat nat;
  next : gmap nat nat
}.

Record BatchQueue := mkBatchQueue {
  queue : list nat;
  batch_depth : Z
}.

Record Lifecycle := mkLifecycle {
  batch : BatchQueue;
  mount : PhaseQueue;
  unmount : PhaseQueue;
  afterBind : PhaseQueue;
  afterUnbind : PhaseQueue;
  afterAttach : PhaseQueue;
  afterDetach : PhaseQueue
}.

Definition set_depth (d : Z) (q : PhaseQueue) : PhaseQueue :=
  mkPhaseQueue d (head q) (tail q) (prev q) (next q).
Definition set_head (h : option nat) (q : PhaseQueue) : PhaseQueue :=
  mkPhaseQueue (depth q) h (tail q) (prev q) (next q).
Definition set_tail (t : option nat) (q : PhaseQueue) : PhaseQueue :=
  mkPhaseQueue (depth q) (head q) t (prev q) (next q).
Definition set_prev (m : gmap nat nat) (q : PhaseQueue) : PhaseQueue :=
  mkPhaseQueue (depth q) (head q) (tail q) m (next q).
Definition set_next (m : gmap nat nat) (q : PhaseQueue) : PhaseQueue :=
  mkPhaseQueue (depth q) (head q) (tail q) (prev q) m.

Definition set_queue (l : list nat) (b : BatchQueue) : BatchQueue :=
  mkBatchQueue l (batch_depth b).
Definition set_batch_depth (d : Z) (b : BatchQueue) : BatchQueue :=
  mkBatchQueue (queue b) d.

(** The state the program runs on: the [Lifecycle] object and, in [store],
    whatever else the callbacks keep between calls. *)
Record World := mkWorld {
  lifecycle : Lifecycle;
  store : gmap nat Z
}.

(** The queue of the [Lifecycle] object that serves a phase. *)
Definition queue_of (p : phase) (s : World) : PhaseQueue :=
  match p with
  | Bound => afterBind (lifecycle s)
  | Unbound => afterUnbind (lifecycle s)
  | Attached => afterAttach (lifecycle s)
  | Detached => afterDetach (lifecycle s)
  | Mount => mount (lifecycle s)
  | Unmount => unmount (lifecycle s)
  end.

Definition put_queue (p : phase) (q : PhaseQueue) (l : Lifecycle) : Lifecycle :=
  match p with
  | Bound =>
      mkLifecycle (batch l) (mount l) (unmount l) q (afterUnbind l) (afterAttach l) (afterDetach l)
  | Unbound =>
      mkLifecycle (batch l) (mount l) (unmount l) (afterBind l) q (afterAttach l) (afterDetach l)
  | Attached =>
      mkLifecycle (batch l) (mount l) (unmount l) (afterBind l) (afterUnbind l) q (afterDetach l)
  | Detached =>
      mkLifecycle (batch l) (mount l) (unmount l) (afterBind l) (afterUnbind l) (afterAttach l) q
  | Mount =>
      mkLifecycle (batch l) q (unmount l) (afterBind l) (afterUnbind l) (afterAttach l) (afterDetach l)
  | Unmount =>
      mkLifecycle (batch l) (mount l) q (afterBind l) (afterUnbind l) (afterAttach l) (afterDetach l)
  end.

Definition with_queue (p : phase) (q : PhaseQueue) (s : World) : World :=
  mkWorld (put_queue p q (lifecycle s)) (store s).

Definition batch_of (s : World) : BatchQueue := batch (lifecycle s).

Definition put_batch (b : BatchQueue) (l : Lifecycle) : Lifecycle :=
  mkLifecycle b (mount l) (unmount l) (afterBind l) (afterUnbind l) (afterAttach l) (afterDetach l).

Definition with_batch (b : BatchQueue) (s : World) : World :=
  mkWorld (put_batch b (lifecycle s)) (store s).

(** A freshly constructed queue and [Lifecycle], and the state at start. *)
Definition new_PhaseQueue : PhaseQueue := mkPhaseQueue 0 None None ∅ ∅.
Definition new_BatchQueue : BatchQueue := mkBatchQueue [] 0.
Definition new_Lifecycle : Lifecycle :=
  mkLifecycle new_BatchQueue new_PhaseQueue new_PhaseQueue
    new_PhaseQueue new_PhaseQueue new_PhaseQueue new_PhaseQueue.
Definition new_World : World := mkWorld new_Lifecycle ∅.

(** ** Effects

    Every method and callback runs synchronously on the shared state and
    either returns or throws.  A run also yields the trace of the lifecycle
    callbacks it invoked, in order.  The drain loops are bounded by a fuel
    argument. *)

Inductive exn :=
| TypeError            (* property access on [undefined] *)
| Thrown (v : nat).    (* a value thrown by caller-supplied code *)

Inductive event :=
| Called (p : phase) (c : nat) (flags : Z)   (* afterBind, ..., mount, unmount *)
| Flushed (b : nat) (flags : Z).             (* flushBatch *)

Inductive outcome :=
| Done (s : World)
| Raised (e : exn) (s : World)
| OutOfFuel.

Definition action : Type := World -> list event * outcome.

Definition done : action := fun s => ([], Done s).
Definition raise (e : exn) : action := fun s => ([], Raised e s).

(** One statement after another: the second runs only if the first
    returned. *)
Definition andThen (m1 m2 : action) : action := fun s =>
  match m1 s with
  | (t1, Done s1) => let (t2, o) := m2 s1 in (t1 ++ t2, o)
  | r => r
  end.

Notation "m1 ;;; m2" := (andThen m1 m2) (at level 62, right associativity).

(** The callbacks of the controllers and batchables: caller-supplied code
    that may itself call back into any queue. *)
Record Hooks := mkHooks {
  callback : phase -> nat -> Z -> action;
  flushBatch : nat -> Z -> action
}.

(** ** Queue mechanics on one phase queue *)

(** [x.field = v] where [v] may be [undefined]. *)
Definition set_link (m : gmap nat nat) (x : nat) (v : option nat) : gmap nat nat :=
  match v with
  | Some y => <[x:=y]> m
  | None => delete x m
  end.

(** The result of a method on one queue: the queue it leaves, and the error
    if it threw. *)
Inductive qresult :=
| QDone (q : PhaseQueue)
| QRaised (e : exn) (q : PhaseQueue).

(** [add(controller)].  On a non-empty queue [controller.prev = this.tail]
    is followed by [this.tail!.next = controller], which throws a
    [TypeError] when [tail] is [undefined]. *)
Definition q_add (controller : nat) (q : PhaseQueue) : qresult :=
  match head q with
  | None => QDone (set_tail (Some controller) (set_head (Some controller) q))
  | Some _ =>
      let q1 := set_prev (set_link (prev q) controller (tail q)) q in
      match tail q1 with
      | None => QRaised TypeError q1
      | Some t =>
          QDone (set_tail (Some controller) (set_next (<[t:=controller]> (next q1)) q1))
      end
  end.

(** [remove(controller)], statement by statement: the two stitching
    assignments, the two assignments that clear the link fields of
    [controller], then the two endpoint tests, which read those fields. *)
Definition q_remove (controller : nat) (q : PhaseQueue) : PhaseQueue :=
  let q1 :=
    match prev q !! controller with
    | Some pc => set_next (set_link (next q) pc (next q !! controller)) q
    | None => q
    end in
  let q2 :=
    match next q1 !! controller with
    | Some nc => set_prev (set_link (prev q1) nc (prev q1 !! controller)) q1
    | None => q1
    end in
  let q3 := set_prev (delete controller (prev q2)) q2 in
  let q4 := set_next (delete controller (next q3)) q3 in
  let q5 :=
    if decide (tail q4 = Some controller)
    then set_tail (prev q4 !! controller) q4 else q4 in
  if decide (head q5 = Some controller)
  then set_head (next q5 !! controller) q5 else q5.

(** The methods as actions on the [Lifecycle] that owns the queue. *)
Definition add (p : phase) (controller : nat) : action := fun s =>
  match q_add controller (queue_of p s) with
  | QDone q => ([], Done (with_queue p q s))
  | QRaised e q => ([], Raised e (with_queue p q s))
  end.

Definition remove (p : phase) (controller : nat) : action := fun s =>
  ([], Done (with_queue p (q_remove controller (queue_of p s)) s)).

(** [if (flags === void 0) { flags = LifecycleFlags.none; }] *)
Definition flags_or_none (none : Z) (flags : option Z) : Z :=
  match flags with
  | None => none
  | Some f => f
  end.

Section Queues.

(** [LifecycleFlags.none] and [LifecycleFlags.fromBatch] are declared in
    [flags.ts]; their values are parameters here. *)
Variable LifecycleFlags_none : Z.
Variable LifecycleFlags_fromBatch : Z.
Variable hooks : Hooks.

(** [cur.afterBind(flags)], [cur.mount(flags)], ...: the call is recorded,
    then the callback runs. *)
Definition invoke (p : phase) (c : nat) (flags : Z) : action := fun s =>
  let (t, o) := callback hooks p c flags s in (Called p c flags :: t, o).

(** After the callback of [cur] has returned: read [cur.next], clear both
    link fields of [cur], and hand back the successor. *)
Definition unlink (p : phase) (cur : nat) (s : World) : option nat * World :=
  let q := queue_of p s in
  (next q !! cur,
   with_queue p (set_prev (delete cur (prev q)) (set_next (delete cur (next q)) q)) s).

(** The inner [do ... while (cur !== void 0)] loop. *)
Fixpoint walk (fuel : nat) (p : phase) (flags : Z) (cur : nat) : action :=
  match fuel with
  | O => fun _ => ([], OutOfFuel)
  | S n =>
      invoke p cur flags ;;; (fun s =>
        match unlink p cur s with
        | (Some nxt, s') => walk n p flags nxt s'
        | (None, s') => done s'
        end)
  end.

(** [process(flags)]: the outer [while (this.head !== void 0)] loop, which
    snapshots [head], resets [head] and [tail], and walks the snapshot.  (The
    counter [i] of [MountQueue.process] and [UnmountQueue.process] is never
    read.) *)
Fixpoint process (fuel : nat) (p : phase) (flags : Z) : action :=
  match fuel with
  | O => fun _ => ([], OutOfFuel)
  | S n => fun s =>
      let q := queue_of p s in
      match head q with
      | None => done s
      | Some cur =>
          (walk n p flags cur ;;; process n p flags)
            (with_queue p (set_tail None (set_head None q)) s)
      end
  end.

(** ** The batch queue *)

(** [ToInt32] and the bitwise [|] of two JavaScript numbers. *)
Definition to_int32 (z : Z) : Z := (z + 2 ^ 31) mod 2 ^ 32 - 2 ^ 31.
Definition js_bitor (a b : Z) : Z := Z.lor (to_int32 a) (to_int32 b).

(** [this.queue.push(requestor)] *)
Definition BatchQueue_add (requestor : nat) : action := fun s =>
  ([], Done (with_batch (set_queue (queue (batch_of s) ++ [requestor]) (batch_of s)) s)).

(** [indexOf] followed by [splice(index, 1)]: drop the first occurrence. *)
Fixpoint remove_first (x : nat) (l : list nat) : list nat :=
  match l with
  | [] => []
  | y :: l' => if decide (y = x) then l' else y :: remove_first x l'
  end.

Definition BatchQueue_remove (requestor : nat) : action := fun s =>
  ([], Done (with_batch (set_queue (remove_first requestor (queue (batch_of s))) (batch_of s)) s)).

(** [batch[i].flushBatch(flags)] *)
Definition invoke_flush (b : nat) (flags : Z) : action := fun s =>
  let (t, o) := flushBatch hooks b flags s in (Flushed b flags :: t, o).

(** The [for] loop over the private copy [batch]. *)
Fixpoint flush_each (flags : Z) (items : list nat) : action :=
  match items with
  | [] => done
  | b :: rest => invoke_flush b flags ;;; flush_each flags rest
  end.

(** The [while (this.queue.length > 0)] loop; [flags] already carries the
    batch marker. *)
Fixpoint flush_rounds (fuel : nat) (flags : Z) : action :=
  match fuel with
  | O => fun _ => ([], OutOfFuel)
  | S n => fun s =>
      match queue (batch_of s) with
      | [] => done s
      | items =>
          (flush_each flags items ;;; flush_rounds n flags)
            (with_batch (set_queue [] (batch_of s)) s)
      end
  end.

(** [process(flags)]: [flags |= LifecycleFlags.fromBatch], then the loop. *)
Definition BatchQueue_process (fuel : nat) (flags : Z) : action :=
  flush_rounds fuel (js_bitor flags LifecycleFlags_fromBatch).

(** ** Auto queues: [begin], [end] and [inline] *)

(** The five classes that implement [IAutoProcessingQueue]. *)
Inductive AutoQueue := BoundQueue | UnboundQueue | AttachedQueue | DetachedQueue | BatchQ.

Definition depth_of (a : AutoQueue) (s : World) : Z :=
  match a with
  | BoundQueue => depth (queue_of Bound s)
  | UnboundQueue => depth (queue_of Unbound s)
  | AttachedQueue => depth (queue_of Attached s)
  | DetachedQueue => depth (queue_of Detached s)
  | BatchQ => batch_depth (batch_of s)
  end.

Definition with_depth (a : AutoQueue) (d : Z) (s : World) : World :=
  match a with
  | BoundQueue => with_queue Bound (set_depth d (queue_of Bound s)) s
  | UnboundQueue => with_queue Unbound (set_depth d (queue_of Unbound s)) s
  | AttachedQueue => with_queue Attached (set_depth d (queue_of Attached s)) s
  | DetachedQueue => with_queue Detached (set_depth d (queue_of Detached s)) s
  | BatchQ => with_batch (set_batch_depth d (batch_of s)) s
  end.

(** [++this.depth] *)
Definition begin (a : AutoQueue) : action := fun s =>
  ([], Done (with_depth a (depth_of a s + 1) s)).

(** What [end] runs once the decremented depth is [0]. *)
Definition settle (fuel : nat) (a : AutoQueue) (flags : Z) : action :=
  match a with
  | BoundQueue => process fuel Bound flags
  | UnboundQueue => process fuel Unbound flags
  | AttachedQueue => process fuel Mount flags ;;; process fuel Attached flags
  | DetachedQueue => process fuel Unmount flags ;;; process fuel Detached flags
  | BatchQ => BatchQueue_process fuel flags
  end.

(** [end(flags?)]: [if (--this.depth === 0) { ... }] *)
Definition end_ (fuel : nat) (a : AutoQueue) (flags : option Z) : action := fun s =>
  let flags := flags_or_none LifecycleFlags_none flags in
  let d := depth_of a s - 1 in
  let s1 := with_depth a d s in
  if decide (d = 0) then settle fuel a flags s1 else done s1.

(** [inline(fn, flags?)]: [this.begin(); fn(); this.end(flags);] *)
Definition inline (fuel : nat) (a : AutoQueue) (fn : action) (flags : option Z) : action :=
  begin a ;;; fn ;;; end_ fuel a flags.

End Queues.

(** * Vocabulary of the statements *)

(** ** Reading traces *)

(** The controllers whose phase-[p] callback a trace records, with the flags
    each call received. *)
Fixpoint calls (p : phase) (t : list event) : list (nat * Z) :=
  match t with
  | [] => []
  | Called p' c f :: t' => if decide (p' = p) then (c, f) :: calls p t' else calls p t'
  | Flushed _ _ :: t' => calls p t'
  end.

(** The batchables whose [flushBatch] a trace records. *)
Fixpoint flushes (t : list event) : list (nat * Z) :=
  match t with
  | [] => []
  | Called _ _ _ :: t' => flushes t'
  | Flushed b f :: t' => (b, f) :: flushes t'
  end.

(** ** Shape of a queue *)

(** [seg_next nxt l e]: following the [next] fields from the first item of
    [l] visits [l] in order, and the [next] field of the last item is [e]. *)
Fixpoint seg_next (nxt : gmap nat nat) (l : list nat) (e : option nat) : Prop :=
  match l with
  | [] => True
  | x :: l' => nxt !! x = match l' with [] => e | y :: _ => Some y end /\ seg_next nxt l' e
  end.

(** [seg_prev prv b l]: the [prev] field of the first item of [l] is [b] and
    every later item points back to its predecessor in [l]. *)
Fixpoint seg_prev (prv : gmap nat nat) (b : option nat) (l : list nat) : Prop :=
  match l with
  | [] => True
  | x :: l' => prv !! x = b /\ seg_prev prv (Some x) l'
  end.

(** The items of [l] are chained in both directions, in the order of [l]. *)
Definition chained (q : PhaseQueue) (l : list nat) : Prop :=
  NoDup l /\ seg_next (next q) l None /\ seg_prev (prev q) None l.

(** The queue holds exactly [l]: the spec's invariants on [head], [tail] and
    the link fields. *)
Definition linked (q : PhaseQueue) (l : list nat) : Prop :=
  chained q l /\ head q = hd_error l /\ tail q = last l.

(** Both link fields of [x] are [undefined]. *)
Definition unlinked (q : PhaseQueue) (x : nat) : Prop :=
  next q !! x = None /\ prev q !! x = None.

(** [head === undefined] iff [tail === undefined]. *)
Definition endpoints_agree (q : PhaseQueue) : Prop :=
  head q = None <-> tail q = None.

(** Both link fields of [x] set to [undefined]. *)
Definition clear_links (x : nat) (q : PhaseQueue) : PhaseQueue :=
  set_prev (delete x (prev q)) (set_next (delete x (next q)) q).

(** The link maps after the two stitching assignments of [remove]. *)
Definition stitched_next (c : nat) (q : PhaseQueue) : gmap nat nat :=
  match prev q !! c with
  | Some pc => set_link (next q) pc (next q !! c)
  | None => next q
  end.

Definition stitched_prev (c : nat) (q : PhaseQueue) : gmap nat nat :=
  match stitched_next c q !! c with
  | Some nc => set_link (prev q) nc (prev q !! c)
  | None => prev q
  end.

(** ** Runs of calls *)

(** A run of [add] calls, one per controller, in order. *)
Fixpoint add_each (p : phase) (cs : list nat) : action :=
  match cs with
  | [] => done
  | c :: cs' => add p c ;;; add_each p cs'
  end.

(** The same on one queue. *)
Fixpoint q_add_each (ds : list nat) (q : PhaseQueue) : qresult :=
  match ds with
  | [] => QDone q
  | d :: ds' =>
      match q_add d q with
      | QDone q' => q_add_each ds' q'
      | r => r
      end
  end.

(** A run of [begin()] ([true]) and [end(flags)] ([false]) calls on one auto
    queue. *)
Fixpoint begin_end_run (none fromBatch : Z) (hooks : Hooks) (fuel : nat)
    (a : AutoQueue) (flags : option Z) (w : list bool) : action :=
  match w with
  | [] => done
  | true :: w' => begin a ;;; begin_end_run none fromBatch hooks fuel a flags w'
  | false :: w' =>
      end_ none fromBatch hooks fuel a flags ;;;
      begin_end_run none fromBatch hooks fuel a flags w'
  end.

(** Started at depth [d], the run meets every [end] at a depth above 1: its
    [begin]/[end] pairs are nested inside a [begin] that is still open. *)
Fixpoint stays_open (d : Z) (w : list bool) : Prop :=
  match w with
  | [] => True
  | true :: w' => stays_open (d + 1) w'
  | false :: w' => 1 < d /\ stays_open (d - 1) w'
  end.

(** The depth a run started at depth [d] ends at. *)
Fixpoint depth_after (d : Z) (w : list bool) : Z :=
  match w with
  | [] => d
  | true :: w' => depth_after (d + 1) w'
  | false :: w' => depth_after (d - 1) w'
  end.

(** The walk over what is left of a snapshotted chain. *)
Definition continue (hooks : Hooks) (p : phase) (flags : Z) (n : nat) (rest : list nat) : action :=
  match rest with
  | [] => done
  | y :: _ => walk hooks n p flags y
  end.

(** ** Behaviour of callbacks *)

(** The phase-[p] callback of [x], called with [flags], returns normally,
    drains nothing from queue [p] itself, and its whole effect on queue [p]
    is to [add] the controllers [ds], in order.  With [ds = []] the callback
    does not touch queue [p]. *)
Definition enqueues (hooks : Hooks) (p : phase) (flags : Z) (x : nat) (ds : list nat) : Prop :=
  forall s q', q_add_each ds (queue_of p s) = QDone q' ->
    exists t s', callback hooks p x flags s = (t, Done s') /\
      calls p t = [] /\ queue_of p s' = q'.

(** The phase-[p] callback of [x] returns normally and does not re-enter
    queue [p]: it neither changes the queue nor drains it. *)
Definition leaves_queue (hooks : Hooks) (p : phase) (flags : Z) (x : nat) : Prop :=
  forall s, exists t s', callback hooks p x flags s = (t, Done s') /\
    calls p t = [] /\ queue_of p s' = queue_of p s.


(** [flushBatch] of [b], called with [f], returns normally, flushes nothing
    itself, and its whole effect on the batch queue is to [add] the
    batchables [ds], in order. *)
Definition flush_enqueues (hooks : Hooks) (f : Z) (b : nat) (ds : list nat) : Prop :=
  forall s, exists t s', flushBatch hooks b f s = (t, Done s') /\
    flushes t = [] /\ batch_of s' = set_queue (queue (batch_of s) ++ ds) (batch_of s).


(** The two auto queues whose [end] first drains a manual queue. *)
Inductive drains_first : AutoQueue -> phase -> phase -> Prop :=
| attach_mount : drains_first AttachedQueue Mount Attached
| detach_unmount : drains_first DetachedQueue Unmount Detached.

(** [P] holds in the state a run ended in, if it ended. *)
Definition outcome_holds (P : World -> Prop) (o : outcome) : Prop :=
  match o with
  | Done s => P s
  | Raised _ s => P s
  | OutOfFuel => True
  end.

(** [rounds new l rs]: the rounds of a drain that starts with [l] queued
    while the callback of every [x] enqueues [new x]: the first round is
    [l], every further round is what the round before it enqueued, and the
    last round enqueues nothing. *)
Fixpoint rounds (new : nat -> list nat) (l : list nat) (rs : list (list nat)) : Prop :=
  match rs with
  | [] => l = []
  | r :: rs' => r = l /\ l <> [] /\ rounds new (concat (map new l)) rs'
  end.

(** ** Auto queues and their phases *)

(** The phase whose callbacks an auto queue of controllers runs. *)
Definition own_phase (a : AutoQueue) : option phase :=
  match a with
  | BoundQueue => Some Bound
  | UnboundQueue => Some Unbound
  | AttachedQueue => Some Attached
  | DetachedQueue => Some Detached
  | BatchQ => None
  end.

(** The manual queue that [end] of an auto queue drains first, if any. *)
Definition render_phase (a : AutoQueue) : option phase :=
  match a with
  | AttachedQueue => Some Mount
  | DetachedQueue => Some Unmount
  | _ => None
  end.

(** A run of [BatchQueue.add] calls, one per batchable, in order. *)
Fixpoint BatchQueue_add_each (xs : list nat) : action :=
  match xs with
  | [] => done
  | x :: xs' => BatchQueue_add x ;;; BatchQueue_add_each xs'
  end.

(** [flushBatch] of [b], called with [f], returns normally, flushes nothing
    itself, and its whole effect on the batch queue is to turn the queued
    list [l] into [g l]. *)
Definition flush_acts (hooks : Hooks) (f : Z) (b : nat) (g : list nat -> list nat) : Prop :=
  forall s, exists t s', flushBatch hooks b f s = (t, Done s') /\
    flushes t = [] /\ batch_of s' = set_queue (g (queue (batch_of s))) (batch_of s).

(** ** Scenarios *)

(** Callbacks that do nothing. *)
Definition idle_hooks : Hooks := mkHooks (fun _ _ _ => done) (fun _ _ => done).

(** The Bind queue after [add] of A = 1, B = 2 and C = 3. *)
Definition abc_queued : World :=
  with_queue Bound
    (mkPhaseQueue 0 (Some 1%nat) (Some 3%nat)
       (<[2%nat := 1%nat]> (<[3%nat := 2%nat]> ∅))
       (<[1%nat := 2%nat]> (<[2%nat := 3%nat]> ∅)))
    new_World.

(** The Bind queue after [add] of A = 1 and B = 2. *)
Definition ab_queued : World :=
  with_queue Bound
    (mkPhaseQueue 0 (Some 1%nat) (Some 2%nat) (<[2%nat := 1%nat]> ∅) (<[1%nat := 2%nat]> ∅))
    new_World.

(** X = 1 queued for a batch flush. *)
Definition x_batched : World := with_batch (mkBatchQueue [1%nat] 0) new_World.

(** The callbacks of item 2 throw; all others do nothing. *)
Definition failing_hooks : Hooks :=
  mkHooks (fun _ c _ => match c with 2%nat => raise (Thrown 7) | _ => done end)
          (fun b _ => match b with 2%nat => raise (Thrown 7) | _ => done end).

(** A, B, C queued for Bind, and 1, 2, 3 queued for a batch flush. *)
Definition abc_queued_and_batched : World :=
  with_batch (mkBatchQueue [1; 2; 3]%nat 0) abc_queued.

(** A = 1 enqueues D = 4 on the queue being drained; nothing else happens. *)
Definition reentrant_hooks : Hooks :=
  mkHooks (fun p c _ => match c with 1%nat => add p 4%nat | _ => done end)
          (fun _ _ => done).

(** Inside one [begin] of the Attach queue: 1 and 2 wait for [mount], 3 and
    4 wait for [afterAttach]. *)
Definition attach_pending : World :=
  with_queue Attached
    (mkPhaseQueue 1 (Some 3%nat) (Some 4%nat) (<[4%nat := 3%nat]> ∅) (<[3%nat := 4%nat]> ∅))
    (with_queue Mount
       (mkPhaseQueue 0 (Some 1%nat) (Some 2%nat) (<[2%nat := 1%nat]> ∅) (<[1%nat := 2%nat]> ∅))
       new_World).

(** B = 2 removes itself from the queue being drained. *)
Definition self_removing_hooks : Hooks :=
  mkHooks (fun p c _ => match c with 2%nat => remove p 2%nat | _ => done end)
          (fun _ _ => done).

(** A = 1 removes C = 3 from the queue being drained. *)
Definition cancelling_hooks : Hooks :=
  mkHooks (fun p c _ => match c with 1%nat => remove p 3%nat | _ => done end)
          (fun _ _ => done).

(** An empty Bind queue while B = 2 still points to C = 3. *)
Definition bc_dangling : World :=
  with_queue Bound
    (mkPhaseQueue 0 None None (<[3%nat := 2%nat]> ∅) (<[2%nat := 3%nat]> ∅))
    new_World.

(** The [flushBatch] of 1 removes 2 from the batch queue. *)
Definition removing_batch_hooks : Hooks :=
  mkHooks (fun _ _ _ => done)
    (fun b _ => match b with 1%nat => BatchQueue_remove 2%nat | _ => done end).

(** The [flushBatch] of 1 enqueues 9, the one of 2 removes 9 again. *)
Definition add_remove_batch_hooks : Hooks :=
  mkHooks (fun _ _ _ => done)
    (fun b _ => match b with
                | 1%nat => BatchQueue_add 9%nat
                | 2%nat => BatchQueue_remove 9%nat
                | _ => done
                end).

(** A = 1 enqueues D = 4, whose callback enqueues E = 5; the [flushBatch]
    of 1 enqueues 2, the one of 2 enqueues 3. *)
Definition chain_hooks : Hooks :=
  mkHooks (fun p c _ => match c with
                        | 1%nat => add p 4%nat
                        | 4%nat => add p 5%nat
                        | _ => done
                        end)
          (fun b _ => match b with
                      | 1%nat => BatchQueue_add 2%nat
                      | 2%nat => BatchQueue_add 3%nat
                      | _ => done
                      end).


(** A = 1 adds D = 4 to the Bind queue inside its own [inline] on that
    queue, with the flags omitted; the [flushBatch] of 1 adds 2 inside its
    own [inline] on the batch queue. *)
Definition nested_hooks : Hooks :=
  mkHooks
    (fun _ c _ => match c with
                  | 1%nat => inline 0 2 idle_hooks 3 BoundQueue (add Bound 4%nat) None
                  | _ => done
                  end)
    (fun b _ => match b with
                | 1%nat => inline 0 2 idle_hooks 3 BatchQ (BatchQueue_add 2%nat) None
                | _ => done
                end).

(** * Lemmas *)

(** ** Basic facts *)

Lemma queue_of_with_queue p q s : queue_of p (with_queue p q s) = q.
Proof. by destruct p. Qed.

Lemma queue_of_with_queue_ne p p' q s :
  p <> p' -> queue_of p' (with_queue p q s) = queue_of p' s.
Proof. by destruct p, p'. Qed.

Lemma with_queue_queue_of p s : with_queue p (queue_of p s) s = s.
Proof. destruct s as [[] st]. by destruct p. Qed.

Lemma with_queue_twice p q q' s :
  with_queue p q (with_queue p q' s) = with_queue p q s.
Proof. by destruct p. Qed.

Lemma batch_with_queue p q s : batch_of (with_queue p q s) = batch_of s.
Proof. by destruct p. Qed.

Lemma lookup_set_link m x v y :
  set_link m x v !! y = if decide (x = y) then v else m !! y.
Proof.
  destruct v as [z|]; simpl.
  - rewrite lookup_insert. by case_decide.
  - rewrite lookup_delete. by case_decide.
Qed.

Lemma calls_app p t1 t2 : calls p (t1 ++ t2) = calls p t1 ++ calls p t2.
Proof.
  induction t1 as [|[p' c f|b f] t1 IH]; simpl; [done| |done].
  case_decide; simpl; by rewrite IH.
Qed.

Lemma flushes_app t1 t2 : flushes (t1 ++ t2) = flushes t1 ++ flushes t2.
Proof.
  induction t1 as [|[p' c f|b f] t1 IH]; simpl; [done|done|].
  by rewrite IH.
Qed.

Lemma seg_next_frame nxt nxt' l e :
  (forall x, x ∈ l -> nxt' !! x = nxt !! x) ->
  seg_next nxt l e -> seg_next nxt' l e.
Proof.
  induction l as [|x l IH]; simpl; [done|].
  intros Hf [Hx Hl]. split.
  - rewrite Hf; [done|]. by left.
  - apply IH; [|done]. intros y Hy. apply Hf. by right.
Qed.

Lemma seg_prev_frame prv prv' b l :
  (forall x, x ∈ l -> prv' !! x = prv !! x) ->
  seg_prev prv b l -> seg_prev prv' b l.
Proof.
  revert b. induction l as [|x l IH]; simpl; [done|].
  intros b Hf [Hx Hl]. split.
  - rewrite Hf; [done|]. by left.
  - apply IH; [|done]. intros y Hy. apply Hf. by right.
Qed.

Lemma seg_next_app nxt l1 l2 e :
  seg_next nxt (l1 ++ l2) e <->
  seg_next nxt l1 (match l2 with [] => e | y :: _ => Some y end) /\ seg_next nxt l2 e.
Proof.
  induction l1 as [|x l1 IH]; simpl; [tauto|].
  rewrite IH. destruct l1 as [|x' l1]; simpl; [|tauto].
  destruct l2; simpl; tauto.
Qed.

Lemma seg_prev_app prv b l1 l2 :
  seg_prev prv b (l1 ++ l2) <->
  seg_prev prv b l1 /\ seg_prev prv (match last l1 with None => b | o => o end) l2.
Proof.
  revert b. induction l1 as [|x l1 IH]; intros b; simpl; [tauto|].
  rewrite IH. destruct l1 as [|x' l1]; simpl; [tauto|].
  destruct (last (x' :: l1)) eqn:E; [tauto|].
  by apply last_None in E.
Qed.

(** Disjointness bookkeeping *)

Lemma NoDup_app_4_l (a b c d : list nat) :
  NoDup (a ++ b ++ c ++ d) -> NoDup (a ++ b ++ c).
Proof.
  rewrite (assoc_L (++) b c d), (assoc_L (++) a (b ++ c) d).
  rewrite NoDup_app. tauto.
Qed.

Lemma NoDup_app_4_tl x (a b c d : list nat) :
  NoDup ((x :: a) ++ b ++ c ++ d) -> NoDup (a ++ (b ++ c) ++ d).
Proof.
  simpl. rewrite NoDup_cons, (assoc_L (++) b c d). tauto.
Qed.

Lemma NoDup_app_disjoint (a b : list nat) x :
  NoDup (a ++ b) -> x ∈ a -> x ∈ b -> False.
Proof. rewrite NoDup_app. intros (_ & H & _) Ha Hb. exact (H x Ha Hb). Qed.

Lemma NoDup_cons_fresh x (a : list nat) : NoDup (x :: a) -> x ∉ a.
Proof. rewrite NoDup_cons. tauto. Qed.

Lemma NoDup_app_r (a b : list nat) : NoDup (a ++ b) -> NoDup b.
Proof. rewrite NoDup_app. tauto. Qed.

(** ** [add] on a well-formed queue *)

Lemma hd_error_snoc_app (l : list nat) x y :
  hd_error ((l ++ [x]) ++ [y]) = hd_error (l ++ [x]).
Proof. by destruct l. Qed.

Lemma q_add_linked q m c :
  linked q m -> c ∉ m -> unlinked q c ->
  exists q', q_add c q = QDone q' /\ linked q' (m ++ [c]) /\ depth q' = depth q /\
    (forall y, y ∉ m -> y <> c ->
       next q' !! y = next q !! y /\ prev q' !! y = prev q !! y).
Proof.
  intros [[Hnd [Hn Hp]] [Hh Ht]] Hc [Hcn Hcp].
  destruct m as [|t m' _] using rev_ind.
  - simpl in Hh. unfold q_add. rewrite Hh. eexists. split; [done|].
    repeat split; simpl; try done. apply NoDup_singleton.
  - rewrite last_snoc in Ht.
    assert (Hne : c <> t) by (intros ->; apply Hc, elem_of_app; right; by left).
    assert (Htm : t ∉ m') by (intros Hin; apply (NoDup_app_disjoint _ _ t Hnd Hin); by left).
    unfold q_add. destruct (head q) as [h|] eqn:Eh; [|by destruct m'].
    simpl. rewrite Ht. eexists. split; [done|].
    apply seg_next_app in Hn as [Hn1 Hn2]. simpl in Hn1, Hn2.
    repeat split; simpl.
    + apply NoDup_app. split; [done|]. split; [|apply NoDup_singleton].
      intros y Hy Hyc. apply list_elem_of_singleton in Hyc as ->. by apply Hc.
    + apply seg_next_app. simpl. split.
      * apply seg_next_app. simpl. split.
        -- eapply seg_next_frame; [|exact Hn1].
           intros x Hx. rewrite lookup_insert_ne; [done|]. by intros ->.
        -- by rewrite lookup_insert_eq.
      * by rewrite lookup_insert_ne.
    + apply seg_prev_app. rewrite last_snoc. simpl. split.
      * eapply seg_prev_frame; [|exact Hp].
        intros x Hx. rewrite lookup_insert_ne; [done|]. by intros ->.
      * by rewrite lookup_insert_eq.
    + by rewrite hd_error_snoc_app, Eh.
    + by rewrite last_snoc.
    + rewrite lookup_insert_ne; [done|]. intros E.
      match goal with H : _ ∉ m' ++ [t] |- _ => apply H end.
      rewrite <- E. apply elem_of_app. right. by left.
    + by rewrite lookup_insert_ne.
Qed.

(** ** Callbacks that enqueue *)

Lemma q_add_each_linked ds : forall q m,
  linked q m -> NoDup (m ++ ds) -> (forall d, d ∈ ds -> unlinked q d) ->
  exists q', q_add_each ds q = QDone q' /\ linked q' (m ++ ds) /\ depth q' = depth q /\
    (forall y, y ∉ m ++ ds ->
       next q' !! y = next q !! y /\ prev q' !! y = prev q !! y).
Proof.
  induction ds as [|d ds IH]; intros q m Hl Hnd Hu.
  - exists q. rewrite app_nil_r. simpl. eauto.
  - assert (Hd : d ∉ m).
    { apply NoDup_app in Hnd as (_ & H & _). intros Hin. apply (H d Hin). by left. }
    destruct (q_add_linked q m d Hl Hd) as (q1 & E1 & Hl1 & Hd1 & Hf1).
    { apply Hu. by left. }
    rewrite (assoc_L _ m [d] ds : m ++ d :: ds = (m ++ [d]) ++ ds) in Hnd |- *.
    destruct (IH q1 (m ++ [d]) Hl1 Hnd) as (q2 & E2 & Hl2 & Hd2 & Hf2).
    { intros e He.
      assert ((e ∉ m) /\ (e <> d)) as [Hem Hed].
      { apply NoDup_app in Hnd as (Hnd1 & H & _). split.
        - intros Hin. apply (H e); [|done]. apply elem_of_app. by left.
        - intros ->. apply (H d); [|done]. apply elem_of_app. right. by left. }
      unfold unlinked. destruct (Hf1 e Hem Hed) as [-> ->]. apply Hu. by right. }
    exists q2. simpl. rewrite E1. split; [done|]. split; [done|]. split; [congruence|].
    intros y Hy. destruct (Hf2 y Hy) as [-> ->]. apply Hf1.
    + intros Hin. apply Hy. rewrite !elem_of_app. auto.
    + intros ->. apply Hy. rewrite !elem_of_app, list_elem_of_singleton. auto.
Qed.

(** ** [remove] *)

(** What [remove] computes: the link fields of the removed item are already
    cleared when the endpoint tests read them, so an endpoint that is the
    removed item always becomes [undefined]. *)
Lemma q_remove_unfold c q :
  q_remove c q =
  mkPhaseQueue (depth q)
    (if decide (head q = Some c) then None else head q)
    (if decide (tail q = Some c) then None else tail q)
    (delete c (stitched_prev c q)) (delete c (stitched_next c q)).
Proof.
  unfold q_remove, stitched_prev, stitched_next.
  destruct (prev q !! c) as [pc|] eqn:Ep; simpl;
    match goal with |- context [match ?m !! c with _ => _ end] =>
      destruct (m !! c) as [nc|] eqn:En end; simpl; rewrite ?Ep;
    repeat case_decide; simpl; rewrite ?lookup_delete_eq; simpl in *;
    first [done | congruence].
Qed.

(** [remove] of an item of a well-formed queue: the forward chain skips the
    removed item; [head] survives unless the removed item was the head. *)
Lemma q_remove_linked q l1 c l2 :
  linked q (l1 ++ c :: l2) ->
  NoDup (l1 ++ l2) /\
  seg_next (next (q_remove c q)) (l1 ++ l2) None /\
  head (q_remove c q) = match l1 with [] => None | h :: _ => Some h end /\
  tail (q_remove c q) = match l2 with [] => None | _ :: _ => last l2 end /\
  unlinked (q_remove c q) c.
Proof.
  intros [[Hnd [Hn Hp]] [Hh Ht]].
  assert (Hc1 : c ∉ l1).
  { intros Hin. apply NoDup_app in Hnd as (_ & H & _). apply (H c Hin). by left. }
  assert (Hc2 : c ∉ l2).
  { apply NoDup_app in Hnd as (_ & _ & H). by apply NoDup_cons in H as [H _]. }
  assert (H12 : forall y, y ∈ l1 -> y ∉ l2).
  { intros y H1 H2. apply NoDup_app in Hnd as (_ & H & _). apply (H y H1). by right. }
  apply seg_next_app in Hn as [Hn1 [Hnc Hn2]].
  apply seg_prev_app in Hp as [Hp1 [Hpc Hp2]].
  rewrite q_remove_unfold. simpl.
  split; [|split; [|split; [|split]]].
  - apply NoDup_app in Hnd as (Hd1 & _ & Hd2). apply NoDup_cons in Hd2 as [_ Hd2].
    apply NoDup_app. split; [done|]. split; [done|done].
  - apply seg_next_app. split.
    + unfold stitched_next. rewrite Hpc.
      destruct l1 as [|pc l1' _] using rev_ind; [done|].
      rewrite last_snoc. apply seg_next_app in Hn1 as [Hn1 [Hnpc _]].
      apply seg_next_app. simpl. split.
      * eapply seg_next_frame; [|exact Hn1]. intros y Hy.
        rewrite lookup_delete_ne, lookup_set_link by (intros ->; apply Hc1, elem_of_app; by left).
        rewrite decide_False; [done|]. intros E.
        apply NoDup_app in Hnd as (Hd1 & _). apply NoDup_app in Hd1 as (_ & H & _).
        apply (H y Hy). rewrite <- E. by left.
      * rewrite lookup_delete_ne, lookup_set_link by (intros ->; apply Hc1, elem_of_app; right; by left).
        rewrite decide_True by done. rewrite Hnc. split; [|done]. by destruct l2.
    + eapply seg_next_frame; [|exact Hn2]. intros y Hy.
      rewrite lookup_delete_ne by (by intros ->). unfold stitched_next.
      destruct (prev q !! c) as [pc|] eqn:Epc; [|done].
      rewrite lookup_set_link, decide_False; [done|]. intros E.
      destruct l1 as [|pc' l1' _] using rev_ind; [done|].
      rewrite last_snoc in Hpc. injection Hpc as E'.
      apply (H12 y); [|done]. apply elem_of_app. right. rewrite <- E, E'. by left.
  - rewrite Hh. destruct l1 as [|h l1']; simpl.
    + by rewrite decide_True.
    + rewrite decide_False; [done|]. intros [= ->]. apply Hc1. by left.
  - rewrite Ht, last_app. simpl. destruct l2 as [|y l2']; simpl.
    + by rewrite decide_True.
    + rewrite last_cons. destruct (last l2') as [z|] eqn:Ez.
      * rewrite decide_False; [done|]. intros [= ->].
        apply Hc2. right. by apply last_Some_elem_of.
      * rewrite decide_False; [done|]. intros [= ->]. apply Hc2. by left.
  - split; simpl; apply lookup_delete_eq.
Qed.

Lemma linked_clear_links q l x :
  linked q l -> x ∉ l -> linked (clear_links x q) l.
Proof.
  intros [[Hnd [Hn Hp]] [Hh Ht]] Hx. repeat split; simpl; try done.
  - eapply seg_next_frame; [|exact Hn].
    intros y Hy. rewrite lookup_delete_ne; [done|]. by intros ->.
  - eapply seg_prev_frame; [|exact Hp].
    intros y Hy. rewrite lookup_delete_ne; [done|]. by intros ->.
Qed.

Section Drain.

Variable hooks : Hooks.
Variable p : phase.
Variable flags : Z.

Lemma leaves_queue_enqueues x : leaves_queue hooks p flags x -> enqueues hooks p flags x [].
Proof.
  intros H s q' [= <-]. exact (H s).
Qed.

Lemma walk_step x rest m ds s n :
  NoDup ((x :: rest) ++ m ++ ds) ->
  seg_next (next (queue_of p s)) (x :: rest) None ->
  linked (queue_of p s) m ->
  (forall d, d ∈ ds -> unlinked (queue_of p s) d) ->
  enqueues hooks p flags x ds ->
  exists t s1,
    calls p t = [] /\
    walk hooks (S n) p flags x s =
      (let (t2, o) := continue hooks p flags n rest s1 in (Called p x flags :: t ++ t2, o)) /\
    seg_next (next (queue_of p s1)) rest None /\
    linked (queue_of p s1) (m ++ ds) /\
    depth (queue_of p s1) = depth (queue_of p s) /\
    unlinked (queue_of p s1) x /\
    (forall y, y <> x -> y ∉ m ++ ds ->
       next (queue_of p s1) !! y = next (queue_of p s) !! y /\
       prev (queue_of p s1) !! y = prev (queue_of p s) !! y).
Proof.
  intros Hnd [Hx Hrest] Hl Hu Hcb.
  assert (Hxm : x ∉ m ++ ds).
  { apply NoDup_app in Hnd as (_ & H & _). apply H. by left. }
  destruct (q_add_each_linked ds _ m Hl) as (q' & E & Hl' & Hd' & Hf'); [|done|].
  { by apply NoDup_app in Hnd as (_ & _ & H). }
  destruct (Hcb s q' E) as (t & s' & Hc & Ht & Hq).
  exists t, (with_queue p (clear_links x q') s'). rewrite queue_of_with_queue.
  split; [done|]. split; [|split; [|split; [|split; [|split]]]].
  - simpl. unfold andThen, invoke. rewrite Hc. unfold unlink. rewrite Hq.
    destruct (Hf' x Hxm) as [-> _]. rewrite Hx.
    fold (clear_links x q'). by destruct rest.
  - simpl. eapply seg_next_frame; [|exact Hrest].
    intros y Hy. rewrite lookup_delete_ne.
    + apply Hf'. apply NoDup_app in Hnd as (_ & H & _). apply H. by right.
    + intros ->. apply NoDup_app in Hnd as (H & _). by apply NoDup_cons in H as [H _].
  - by apply linked_clear_links.
  - done.
  - split; simpl; apply lookup_delete_eq.
  - intros y Hy Hym. simpl. rewrite !lookup_delete_ne by done. by apply Hf'.
Qed.

(** One walk over a snapshotted chain whose callbacks enqueue: the walk
    calls exactly the snapshotted items, in order, and the enqueued items
    pile up on the live list. *)
Lemma walk_enqueues (new : nat -> list nat) rest : forall x m s fuel,
  (length rest < fuel)%nat ->
  NoDup ((x :: rest) ++ m ++ concat (map new (x :: rest))) ->
  seg_next (next (queue_of p s)) (x :: rest) None ->
  linked (queue_of p s) m ->
  (forall d, d ∈ concat (map new (x :: rest)) -> unlinked (queue_of p s) d) ->
  (forall y, y ∈ x :: rest -> enqueues hooks p flags y (new y)) ->
  exists t s',
    walk hooks fuel p flags x s = (t, Done s') /\
    calls p t = map (fun y => (y, flags)) (x :: rest) /\
    linked (queue_of p s') (m ++ concat (map new (x :: rest))) /\
    depth (queue_of p s') = depth (queue_of p s) /\
    (forall y, y ∈ x :: rest -> unlinked (queue_of p s') y) /\
    (forall y, y ∉ x :: rest -> y ∉ m ++ concat (map new (x :: rest)) ->
       next (queue_of p s') !! y = next (queue_of p s) !! y /\
       prev (queue_of p s') !! y = prev (queue_of p s) !! y).
Proof.
  induction rest as [|y rest IH]; intros x m s fuel Hfuel Hnd Hseg Hl Hu Hcb;
    (destruct fuel as [|n]; [simpl in Hfuel; lia|]).
  - simpl in Hnd, Hu |- *. rewrite app_nil_r in Hnd, Hu |- *.
    destruct (walk_step x [] m (new x) s n Hnd Hseg Hl Hu) as
      (t & s1 & Ht & Hw & _ & Hl1 & Hd1 & Hx1 & Hf1); [apply Hcb; by left|].
    exists (Called p x flags :: t ++ []), s1. split; [done|].
    split; [simpl; rewrite decide_True by done; by rewrite app_nil_r, Ht|].
    split; [done|]. split; [done|]. split.
    + intros y Hy. apply list_elem_of_singleton in Hy as ->. done.
    + intros y Hy Hym. apply Hf1; [|done]. intros ->. apply Hy. by left.
  - change (concat (map new (x :: y :: rest)))
      with (new x ++ concat (map new (y :: rest))) in *.
    set (D := concat (map new (y :: rest))) in *.
    assert (Hx : x ∉ (y :: rest) ++ m ++ new x ++ D) by exact (NoDup_cons_fresh _ _ Hnd).
    assert (HD : forall d, d ∈ D -> d <> x /\ d ∉ m ++ new x).
    { intros d Hd. split.
      - intros ->. apply Hx. rewrite !elem_of_app. auto.
      - intros Hdm. apply NoDup_app_r in Hnd. rewrite (assoc_L (++)) in Hnd.
        exact (NoDup_app_disjoint _ _ d Hnd Hdm Hd). }
    destruct (walk_step x (y :: rest) m (new x) s n) as
      (t & s1 & Ht & Hw & Hseg1 & Hl1 & Hd1 & Hx1 & Hf1);
      [by apply NoDup_app_4_l in Hnd|done|done| |apply Hcb; by left|].
    { intros d Hd. apply Hu. rewrite elem_of_app. by left. }
    destruct (IH y (m ++ new x) s1 n) as (t2 & s2 & Hw2 & Ht2 & Hl2 & Hd2 & Hx2 & Hf2);
      [simpl in Hfuel; lia|by apply NoDup_app_4_tl in Hnd|done|done| | |].
    { fold D. intros d Hd. unfold unlinked.
      destruct (HD d Hd) as [Hdx Hdm].
      destruct (Hf1 d Hdx Hdm) as [-> ->]. apply Hu. rewrite elem_of_app. by right. }
    { intros z Hz. apply Hcb. by right. }
    fold D in Hl2, Hf2.
    exists (Called p x flags :: t ++ t2), s2. split.
    { rewrite Hw. simpl. by rewrite Hw2. }
    split.
    { simpl. rewrite decide_True by done. rewrite calls_app, Ht, Ht2. done. }
    split; [by rewrite (assoc_L (++))|]. split; [congruence|]. split.
    + intros z Hz. apply elem_of_cons in Hz as [->|Hz]; [|by apply Hx2].
      unfold unlinked. destruct (Hf2 x) as [-> ->]; [| |done].
      * intros Hin. apply Hx. rewrite elem_of_app. by left.
      * intros Hin. apply Hx. rewrite elem_of_app. right. by rewrite (assoc_L (++)).
    + intros z Hz Hzm. rewrite (assoc_L (++)) in Hzm.
      destruct (Hf2 z) as [-> ->]; [|done|].
      * intros Hin. apply Hz. by right.
      * apply Hf1.
        -- intros ->. apply Hz. by left.
        -- intros Hin. apply Hzm. rewrite elem_of_app. by left.
Qed.

Lemma process_done n s :
  head (queue_of p s) = None -> process hooks (S n) p flags s = ([], Done s).
Proof. intros H. simpl. by rewrite H. Qed.

Lemma linked_nil q : linked q [] <-> head q = None /\ tail q = None.
Proof.
  unfold linked, chained. simpl. split; [tauto|].
  intros [-> ->]. repeat split. apply NoDup_nil_2.
Qed.

(** One round of [process]: the list is snapshotted, the live list is reset,
    the snapshot is walked, and the loop goes on with whatever the callbacks
    enqueued meanwhile. *)
Lemma process_round (new : nat -> list nat) x rest s n :
  (length rest < n)%nat ->
  head (queue_of p s) = Some x ->
  seg_next (next (queue_of p s)) (x :: rest) None ->
  NoDup ((x :: rest) ++ concat (map new (x :: rest))) ->
  (forall d, d ∈ concat (map new (x :: rest)) -> unlinked (queue_of p s) d) ->
  (forall y, y ∈ x :: rest -> enqueues hooks p flags y (new y)) ->
  exists t1 s1,
    process hooks (S n) p flags s =
      (let (t2, o) := process hooks n p flags s1 in (t1 ++ t2, o)) /\
    calls p t1 = map (fun y => (y, flags)) (x :: rest) /\
    linked (queue_of p s1) (concat (map new (x :: rest))) /\
    depth (queue_of p s1) = depth (queue_of p s) /\
    (forall y, y ∈ x :: rest -> unlinked (queue_of p s1) y) /\
    (forall y, y ∉ x :: rest -> y ∉ concat (map new (x :: rest)) ->
       next (queue_of p s1) !! y = next (queue_of p s) !! y /\
       prev (queue_of p s1) !! y = prev (queue_of p s) !! y).
Proof.
  intros Hfuel Hh Hseg Hnd Hu Hcb.
  set (s0 := with_queue p (set_tail None (set_head None (queue_of p s))) s).
  destruct (walk_enqueues new rest x [] s0 n Hfuel) as
    (t1 & s1 & Hw & Ht & Hl & Hd & Hx & Hf); try done.
  - unfold s0. by rewrite queue_of_with_queue.
  - unfold s0. rewrite queue_of_with_queue. by apply linked_nil.
  - unfold s0. by rewrite queue_of_with_queue.
  - exists t1, s1. unfold s0 in Hd, Hf. rewrite queue_of_with_queue in Hd, Hf.
    split; [|done]. simpl. rewrite Hh. unfold andThen. fold s0. by rewrite Hw.
Qed.

Lemma concat_map_nil (l : list nat) : concat (map (fun _ => @nil nat) l) = [].
Proof. by induction l. Qed.

(** A drain whose callbacks leave the queue alone: one round, FIFO, and the
    queue ends empty with the link fields of every visited item cleared. *)
Lemma process_quiet l s fuel :
  (length l < fuel)%nat ->
  head (queue_of p s) = hd_error l ->
  seg_next (next (queue_of p s)) l None ->
  NoDup l ->
  (forall y, y ∈ l -> enqueues hooks p flags y []) ->
  exists t s',
    process hooks fuel p flags s = (t, Done s') /\
    calls p t = map (fun y => (y, flags)) l /\
    head (queue_of p s') = None /\
    (l <> [] -> tail (queue_of p s') = None) /\
    depth (queue_of p s') = depth (queue_of p s) /\
    (forall y, y ∈ l -> unlinked (queue_of p s') y) /\
    (forall y, y ∉ l ->
       next (queue_of p s') !! y = next (queue_of p s) !! y /\
       prev (queue_of p s') !! y = prev (queue_of p s) !! y).
Proof.
  intros Hfuel Hh Hseg Hnd Hcb.
  destruct fuel as [|n]; [lia|].
  destruct l as [|x rest].
  - exists [], s. rewrite process_done by done.
    repeat split; try done; by match goal with H : _ ∈ [] |- _ => apply elem_of_nil in H end.
  - simpl in Hfuel.
    destruct (process_round (fun _ => []) x rest s n) as
      (t1 & s1 & Hp & Ht & Hl & Hd & Hx & Hf); try done; try lia.
    + by rewrite concat_map_nil, app_nil_r.
    + intros d. rewrite concat_map_nil. intros Hd. by apply elem_of_nil in Hd.
    + rewrite concat_map_nil in Hl, Hf. apply linked_nil in Hl as [Hh1 Ht1].
      destruct n as [|n]; [lia|]. rewrite (process_done n s1) in Hp by done.
      rewrite app_nil_r in Hp. exists t1, s1.
      split; [done|]. split; [done|]. split; [done|]. split; [done|].
      split; [done|]. split; [done|].
      intros y Hy. apply Hf; [done|]. apply not_elem_of_nil.
Qed.

End Drain.

Lemma add_each_q p cs : forall s q',
  q_add_each cs (queue_of p s) = QDone q' ->
  add_each p cs s = ([], Done (with_queue p q' s)).
Proof.
  induction cs as [|c cs IH]; intros s q' H; simpl in *.
  - injection H as <-. by rewrite with_queue_queue_of.
  - unfold andThen, add. destruct (q_add c (queue_of p s)) as [q1|e q1]; [|done].
    rewrite (IH (with_queue p q1 s) q'), ?with_queue_twice; [done|].
    by rewrite queue_of_with_queue.
Qed.

Lemma idle_hooks_leave p flags c : leaves_queue idle_hooks p flags c.
Proof. intros s. by exists [], s. Qed.

Lemma unlinked_new c : unlinked new_PhaseQueue c.
Proof. split; apply lookup_empty. Qed.

Lemma abc_queued_linked : linked (queue_of Bound abc_queued) [1; 2; 3]%nat.
Proof.
  repeat split; try reflexivity.
  apply (bool_decide_unpack (NoDup [1; 2; 3]%nat)). vm_compute. exact I.
Qed.

Lemma ab_queued_linked : linked (queue_of Bound ab_queued) (1%nat :: [] ++ [2%nat]).
Proof.
  repeat split; try reflexivity.
  apply (bool_decide_unpack (NoDup [1; 2]%nat)). vm_compute. exact I.
Qed.

(** ** Depth counting *)

Lemma depth_of_with_depth a d s : depth_of a (with_depth a d s) = d.
Proof. by destruct a. Qed.

Lemma with_depth_twice a d d' s : with_depth a d (with_depth a d' s) = with_depth a d s.
Proof. by destruct a. Qed.

Lemma with_depth_same a s : with_depth a (depth_of a s) s = s.
Proof.
  destruct s as [[[] [] [] [] [] [] []] st]. by destruct a.
Qed.

Lemma andThen_silent (m1 m2 : action) s s1 :
  m1 s = ([], Done s1) -> (m1 ;;; m2) s = m2 s1.
Proof. intros H. unfold andThen. rewrite H. by destruct (m2 s1). Qed.

Section Depth.

Variable LifecycleFlags_none LifecycleFlags_fromBatch : Z.
Variable hooks : Hooks.
Variable fuel : nat.

Lemma end_inner a flags s :
  depth_of a s <> 1 ->
  end_ LifecycleFlags_none LifecycleFlags_fromBatch hooks fuel a flags s =
  ([], Done (with_depth a (depth_of a s - 1) s)).
Proof.
  intros H. unfold end_. rewrite decide_False by lia. done.
Qed.

Lemma end_outer a flags s :
  depth_of a s = 1 ->
  end_ LifecycleFlags_none LifecycleFlags_fromBatch hooks fuel a flags s =
  settle LifecycleFlags_fromBatch hooks fuel a
    (flags_or_none LifecycleFlags_none flags) (with_depth a 0 s).
Proof.
  intros H. unfold end_. rewrite H. by rewrite decide_True by lia.
Qed.

(** Inside an open [begin], nested [begin]/[end] pairs only move [depth]. *)
Lemma begin_end_run_open a flags w : forall d s,
  stays_open d w -> depth_of a s = d ->
  begin_end_run LifecycleFlags_none LifecycleFlags_fromBatch hooks fuel a flags w s =
  ([], Done (with_depth a (depth_after d w) s)).
Proof.
  induction w as [|[|] w IH]; intros d s Hw Hs.
  - simpl. by rewrite <- Hs, with_depth_same.
  - cbn [begin_end_run stays_open depth_after] in *.
    rewrite (andThen_silent _ _ s _ eq_refl), (IH (d + 1)); [|done|].
    + by rewrite with_depth_twice.
    + by rewrite depth_of_with_depth, Hs.
  - cbn [begin_end_run stays_open depth_after] in *. destruct Hw as [Hd Hw].
    rewrite (andThen_silent _ _ s _ (end_inner a flags s ltac:(lia))), (IH (d - 1)); [|done|].
    + by rewrite with_depth_twice.
    + by rewrite depth_of_with_depth, Hs.
Qed.

End Depth.

(** [process] returns normally only once [head] is undefined. *)
Lemma process_Done_head hooks p flags fuel : forall s t s',
  process hooks fuel p flags s = (t, Done s') -> head (queue_of p s') = None.
Proof.
  induction fuel as [|n IH]; intros s t s' H; [done|].
  simpl in H. destruct (head (queue_of p s)) as [cur|] eqn:Eh.
  - unfold andThen in H.
    destruct (walk hooks n p flags cur _) as [t1 [s1|e s1|]]; [|done|done].
    destruct (process hooks n p flags s1) as [t2 o] eqn:Ep.
    injection H as _ ->. by eapply IH.
  - by injection H as _ <-.
Qed.

(** A drain of queue [p] makes no phase-[q] call unless one of its own
    callbacks does. *)
Lemma andThen_no_calls q (m1 m2 : action) s :
  calls q (fst (m1 s)) = [] -> (forall s', calls q (fst (m2 s')) = []) ->
  calls q (fst ((m1 ;;; m2) s)) = [].
Proof.
  intros H1 H2. unfold andThen. destruct (m1 s) as [t1 [s1|e s1|]]; simpl in *; try done.
  specialize (H2 s1). destruct (m2 s1) as [t2 o]. simpl in *.
  by rewrite calls_app, H1, H2.
Qed.

Lemma walk_no_calls hooks p q flags :
  p <> q ->
  (forall c s, calls q (fst (callback hooks p c flags s)) = []) ->
  forall fuel cur s, calls q (fst (walk hooks fuel p flags cur s)) = [].
Proof.
  intros Hpq Hcb. induction fuel as [|n IH]; intros cur s; [done|].
  cbn [walk]. apply andThen_no_calls.
  - unfold invoke. specialize (Hcb cur s). destruct (callback hooks p cur flags s) as [t o].
    simpl in *. by rewrite decide_False.
  - intros s'. destruct (unlink p cur s') as [[nxt|] s'']; [apply IH|done].
Qed.

Lemma process_no_calls hooks p q flags :
  p <> q ->
  (forall c s, calls q (fst (callback hooks p c flags s)) = []) ->
  forall fuel s, calls q (fst (process hooks fuel p flags s)) = [].
Proof.
  intros Hpq Hcb. induction fuel as [|n IH]; intros s; [done|].
  cbn [process]. destruct (head (queue_of p s)) as [cur|]; [|done].
  apply andThen_no_calls; [by apply walk_no_calls|apply IH].
Qed.

(** ** The batch queue *)

Section Batch.

Variable hooks : Hooks.
Variable f : Z.

Lemma flush_each_enqueues (new : nat -> list nat) items : forall s,
  (forall b, b ∈ items -> flush_enqueues hooks f b (new b)) ->
  exists t s',
    flush_each hooks f items s = (t, Done s') /\
    flushes t = map (fun b => (b, f)) items /\
    batch_of s' = set_queue (queue (batch_of s) ++ concat (map new items)) (batch_of s).
Proof.
  induction items as [|b items IH]; intros s Hcb.
  - exists [], s. simpl. rewrite app_nil_r. by destruct (batch_of s).
  - destruct (Hcb b (list_elem_of_here b items) s) as (t1 & s1 & H1 & Ht1 & Hb1).
    destruct (IH s1) as (t2 & s2 & H2 & Ht2 & Hb2).
    { intros b' Hb'. apply Hcb. by right. }
    exists (Flushed b f :: t1 ++ t2), s2. split; [|split].
    + simpl. unfold andThen, invoke_flush. by rewrite H1, H2.
    + simpl. by rewrite flushes_app, Ht1, Ht2.
    + rewrite Hb2, Hb1. simpl. by rewrite (assoc_L (++)).
Qed.

Lemma flush_rounds_done n s :
  queue (batch_of s) = [] -> flush_rounds hooks (S n) f s = ([], Done s).
Proof. intros H. simpl. by rewrite H. Qed.

(** One round of the batch drain. *)
Lemma flush_rounds_round (new : nat -> list nat) n s :
  queue (batch_of s) <> [] ->
  (forall b, b ∈ queue (batch_of s) -> flush_enqueues hooks f b (new b)) ->
  exists t1 s1,
    flush_rounds hooks (S n) f s =
      (let (t2, o) := flush_rounds hooks n f s1 in (t1 ++ t2, o)) /\
    flushes t1 = map (fun b => (b, f)) (queue (batch_of s)) /\
    batch_of s1 = set_queue (concat (map new (queue (batch_of s)))) (batch_of s).
Proof.
  intros Hne Hcb.
  destruct (flush_each_enqueues new (queue (batch_of s))
              (with_batch (set_queue [] (batch_of s)) s) Hcb) as (t1 & s1 & H1 & Ht1 & Hb1).
  exists t1, s1. split; [|split; [done|]].
  - cbn [flush_rounds]. destruct (queue (batch_of s)) as [|b items] eqn:E; [done|].
    unfold andThen. by rewrite H1.
  - rewrite Hb1. by destruct s.
Qed.


End Batch.

(** ** Callbacks that throw *)

Section Failure.

Variable hooks : Hooks.
Variable p : phase.
Variable flags : Z.



End Failure.

Section BatchFailure.

Variable hooks : Hooks.
Variable f : Z.



End BatchFailure.

(** A callback that is one [add] on the queue being drained. *)
Lemma add_enqueues hooks p flags x d :
  callback hooks p x flags = add p d -> enqueues hooks p flags x [d].
Proof.
  intros E s q' Hq. rewrite E. cbn [q_add_each] in Hq. unfold add.
  destruct (q_add d (queue_of p s)) as [q1|]; [|done]. injection Hq as ->.
  exists [], (with_queue p q' s). by rewrite queue_of_with_queue.
Qed.

(** ** Drains started by [end] *)

Lemma with_batch_twice b b' s : with_batch b (with_batch b' s) = with_batch b s.
Proof. done. Qed.

Lemma batch_of_with_batch b s : batch_of (with_batch b s) = b.
Proof. done. Qed.

Lemma with_batch_same s : with_batch (set_queue (queue (batch_of s)) (batch_of s)) s = s.
Proof. by destruct s as [[[] ? ? ? ? ? ?] ?]. Qed.

Lemma own_phase_depth a p s :
  own_phase a = Some p -> depth_of a s = depth (queue_of p s).
Proof. by destruct a; intros [= <-]. Qed.

Lemma own_phase_with_depth a p d s :
  own_phase a = Some p -> with_depth a d s = with_queue p (set_depth d (queue_of p s)) s.
Proof. by destruct a; intros [= <-]. Qed.

Lemma own_render_ne a p r :
  own_phase a = Some p -> render_phase a = Some r -> p <> r.
Proof. by destruct a; intros [= <-] [= <-]. Qed.

(** With nothing waiting in the manual queue, [end] at depth 1 runs just the
    own [process]. *)
Lemma settle_own fromBatch hooks n a p f s :
  own_phase a = Some p ->
  (forall r, render_phase a = Some r -> head (queue_of r s) = None) ->
  settle fromBatch hooks (S n) a f s = process hooks (S n) p f s.
Proof.
  intros Hp Hr. destruct a; try discriminate; injection Hp as <-; try done.
  - unfold settle. apply andThen_silent, process_done. by apply Hr.
  - unfold settle. apply andThen_silent, process_done. by apply Hr.
Qed.

Lemma linked_set_depth d q l : linked q l -> linked (set_depth d q) l.
Proof. done. Qed.

Section Settle.

Variable LifecycleFlags_none LifecycleFlags_fromBatch : Z.
Variable hooks : Hooks.

(** [end] at depth 1 of a queue that holds [l], with nothing waiting in the
    manual queue that is drained first. *)
Lemma end_drains_own_frame fuel a p flags l s :
  own_phase a = Some p ->
  depth_of a s = 1 ->
  (forall r, render_phase a = Some r -> head (queue_of r s) = None) ->
  linked (queue_of p s) l ->
  (forall c, c ∈ l -> leaves_queue hooks p (flags_or_none LifecycleFlags_none flags) c) ->
  (length l < fuel)%nat ->
  exists t s',
    end_ LifecycleFlags_none LifecycleFlags_fromBatch hooks fuel a flags s = (t, Done s') /\
    calls p t = map (fun c => (c, flags_or_none LifecycleFlags_none flags)) l /\
    depth_of a s' = 0 /\ head (queue_of p s') = None /\
    (l <> [] -> tail (queue_of p s') = None) /\
    (forall y, y ∉ l ->
       next (queue_of p s') !! y = next (queue_of p s) !! y /\
       prev (queue_of p s') !! y = prev (queue_of p s) !! y).
Proof.
  intros Hp Hd Hr [[Hnd [Hseg _]] [Hh _]] Hcb Hfuel.
  destruct fuel as [|n]; [lia|].
  rewrite end_outer by done.
  assert (Hq0 : queue_of p (with_depth a 0 s) = set_depth 0 (queue_of p s)).
  { rewrite (own_phase_with_depth a p) by done. by rewrite queue_of_with_queue. }
  rewrite (settle_own LifecycleFlags_fromBatch hooks n a p); [|done|].
  2: { intros r Hrr. pose proof (own_render_ne a p r Hp Hrr) as Hne.
       rewrite (own_phase_with_depth a p) by done.
       rewrite queue_of_with_queue_ne by done. by apply Hr. }
  destruct (process_quiet hooks p (flags_or_none LifecycleFlags_none flags) l
              (with_depth a 0 s) (S n)) as (t & s2 & Hpr & Hc & Hh2 & Ht2 & Hd2 & _ & Hf2).
  { done. }
  { by rewrite Hq0. }
  { by rewrite Hq0. }
  { done. }
  { intros y Hy. by apply leaves_queue_enqueues, Hcb. }
  exists t, s2. split; [done|]. split; [done|]. split.
  { rewrite (own_phase_depth a p) by done. by rewrite Hd2, Hq0. }
  split; [done|]. split; [done|].
  intros y Hy. destruct (Hf2 y Hy) as [-> ->]. by rewrite Hq0.
Qed.

Lemma end_drains_own fuel a p flags l s :
  own_phase a = Some p ->
  depth_of a s = 1 ->
  (forall r, render_phase a = Some r -> head (queue_of r s) = None) ->
  linked (queue_of p s) l ->
  (forall c, c ∈ l -> leaves_queue hooks p (flags_or_none LifecycleFlags_none flags) c) ->
  (length l < fuel)%nat ->
  exists t s',
    end_ LifecycleFlags_none LifecycleFlags_fromBatch hooks fuel a flags s = (t, Done s') /\
    calls p t = map (fun c => (c, flags_or_none LifecycleFlags_none flags)) l /\
    depth_of a s' = 0 /\ head (queue_of p s') = None.
Proof.
  intros Hp Hd Hr Hl Hcb Hfuel.
  destruct (end_drains_own_frame fuel a p flags l s Hp Hd Hr Hl Hcb Hfuel)
    as (t & s' & He & Ht & Hd' & Hh & _).
  by exists t, s'.
Qed.


(** [end] of the batch queue at depth 1 when its batchables enqueue
    nothing. *)
Lemma end_flushes_batch fuel flags xs s :
  depth_of BatchQ s = 1 ->
  queue (batch_of s) = xs ->
  (forall x, x ∈ xs ->
     flush_enqueues hooks
       (js_bitor (flags_or_none LifecycleFlags_none flags) LifecycleFlags_fromBatch) x []) ->
  (1 < fuel)%nat ->
  exists t s',
    end_ LifecycleFlags_none LifecycleFlags_fromBatch hooks fuel BatchQ flags s
      = (t, Done s') /\
    flushes t =
      map (fun x => (x, js_bitor (flags_or_none LifecycleFlags_none flags)
                          LifecycleFlags_fromBatch)) xs /\
    batch_of s' = mkBatchQueue [] 0.
Proof.
  intros Hd Hq Hcb Hfuel. destruct fuel as [|[|n]]; try lia.
  rewrite end_outer by done. cbn [settle]. unfold BatchQueue_process.
  set (f := js_bitor (flags_or_none LifecycleFlags_none flags) LifecycleFlags_fromBatch) in *.
  set (s1 := with_depth BatchQ 0 s).
  assert (Hb1 : batch_of s1 = mkBatchQueue xs 0).
  { unfold s1, with_depth. rewrite batch_of_with_batch. unfold set_batch_depth.
    by rewrite Hq. }
  destruct xs as [|x xs'].
  { exists [], s1. rewrite flush_rounds_done by (by rewrite Hb1). done. }
  destruct (flush_rounds_round hooks f (fun _ => []) (S n) s1) as (t1 & s2 & H1 & Ht1 & Hb2).
  { by rewrite Hb1. }
  { by rewrite Hb1. }
  rewrite Hb1 in Ht1, Hb2. rewrite concat_map_nil in Hb2.
  rewrite (flush_rounds_done hooks f n s2) in H1 by (by rewrite Hb2).
  rewrite app_nil_r in H1. by exists t1, s2.
Qed.


End Settle.

(** ** Drains of several rounds *)

Lemma rounds_concat new l rs : rounds new l rs -> concat rs = l ++ concat (drop 1 rs).
Proof.
  destruct rs as [|r rs]; simpl.
  - by intros ->.
  - intros [-> _]. by rewrite drop_0.
Qed.

Section Rounds.

Variable hooks : Hooks.
Variable new : nat -> list nat.

(** A drain whose callbacks only enqueue: round after round, until a round
    enqueues nothing. *)
Lemma process_rounds p flags rs : forall l s fuel,
  rounds new l rs ->
  linked (queue_of p s) l ->
  NoDup (concat rs) ->
  (forall d, d ∈ concat (drop 1 rs) -> unlinked (queue_of p s) d) ->
  (forall x, x ∈ concat rs -> enqueues hooks p flags x (new x)) ->
  (length (concat rs) + length rs < fuel)%nat ->
  exists t s',
    process hooks fuel p flags s = (t, Done s') /\
    calls p t = map (fun c => (c, flags)) (concat rs) /\
    head (queue_of p s') = None /\
    depth (queue_of p s') = depth (queue_of p s) /\
    (forall y, y ∈ concat rs -> unlinked (queue_of p s') y) /\
    (forall y, y ∉ concat rs ->
       next (queue_of p s') !! y = next (queue_of p s) !! y /\
       prev (queue_of p s') !! y = prev (queue_of p s) !! y).
Proof.
  induction rs as [|r rs IH]; intros l s fuel Hr Hl Hnd Hu Hcb Hfuel;
    (destruct fuel as [|n]; [lia|]).
  - simpl in Hr. subst l. destruct Hl as [_ [Hh _]].
    exists [], s. rewrite process_done by done.
    split; [done|]. split; [done|]. split; [done|]. split; [done|].
    split; [|done]. intros y Hy. by apply elem_of_nil in Hy.
  - destruct Hr as (-> & Hne & Hr). destruct l as [|x rest]; [done|].
    set (D := concat (map new (x :: rest))) in *.
    pose proof (rounds_concat new D rs Hr) as Hc.
    change (concat ((x :: rest) :: rs)) with ((x :: rest) ++ concat rs) in *.
    simpl drop in Hu. rewrite drop_0 in Hu. rewrite Hc in Hnd, Hu, Hcb.
    destruct Hl as [[_ [Hseg _]] [Hh _]].
    destruct (process_round hooks p flags new x rest s n) as
      (t1 & s1 & Hp & Ht1 & Hl1 & Hd1 & Hx1 & Hf1).
    { rewrite length_app in Hfuel. simpl in Hfuel. lia. }
    { done. }
    { done. }
    { fold D. rewrite (assoc_L (++)) in Hnd. by apply NoDup_app in Hnd as (H & _). }
    { fold D. intros d Hd. apply Hu. apply elem_of_app. by left. }
    { intros y Hy. apply Hcb. apply elem_of_app. by left. }
    fold D in Hl1, Hf1.
    assert (Hnd2 : NoDup (D ++ concat (drop 1 rs))) by (by apply NoDup_app in Hnd as (_ & _ & H)).
    assert (Hdis : forall y, y ∈ x :: rest -> y ∉ D ++ concat (drop 1 rs)).
    { intros y Hy Hy2. exact (NoDup_app_disjoint _ _ y Hnd Hy Hy2). }
    destruct (IH D s1 n Hr Hl1) as (t2 & s2 & Hp2 & Ht2 & Hh2 & Hd2 & Hx2 & Hf2).
    { by rewrite Hc. }
    { intros d Hd. unfold unlinked. destruct (Hf1 d) as [-> ->].
      - intros Hin. apply (Hdis d Hin). apply elem_of_app. by right.
      - intros Hin. exact (NoDup_app_disjoint _ _ d Hnd2 Hin Hd).
      - apply Hu. apply elem_of_app. by right. }
    { rewrite Hc. intros y Hy. apply Hcb. apply elem_of_app. by right. }
    { rewrite length_app in Hfuel. simpl in Hfuel. lia. }
    rewrite Hc in Ht2, Hx2, Hf2. rewrite Hc.
    exists (t1 ++ t2), s2. split; [by rewrite Hp, Hp2|].
    split; [by rewrite calls_app, Ht1, Ht2, <- map_app|]. split; [done|].
    split; [congruence|]. split.
    + intros y Hy. apply elem_of_app in Hy as [Hy|Hy]; [|by apply Hx2].
      unfold unlinked. destruct (Hf2 y (Hdis y Hy)) as [-> ->]. by apply Hx1.
    + intros y Hy. destruct (Hf2 y) as [-> ->].
      { intros Hin. apply Hy. apply elem_of_app. by right. }
      apply Hf1.
      * intros Hin. apply Hy. apply elem_of_app. by left.
      * intros Hin. apply Hy. rewrite !elem_of_app. right. by left.
Qed.


End Rounds.

(** ** A [flushBatch] that runs its own [inline] *)

Section NestedBatch.

Variable LifecycleFlags_none LifecycleFlags_fromBatch : Z.


Variable hooks hooks0 : Hooks.
Variable f : Z.
Variable k : nat.
Variable x y : nat.
Variable fl : option Z.

Hypothesis x_nested : forall s0,
  flushBatch hooks x f s0 =
  inline LifecycleFlags_none LifecycleFlags_fromBatch hooks0 k BatchQ (BatchQueue_add y) fl s0.
Hypothesis y_quiet :
  flush_enqueues hooks0
    (js_bitor (flags_or_none LifecycleFlags_none fl) LifecycleFlags_fromBatch) y [].
Hypothesis k_enough : (1 < k)%nat.



End NestedBatch.

(** * The claims *)

(** C1 fails on the code: D, added to the Bind queue from within A's
    [afterBind] during [process], is called by that same [process] call, in a
    second round of its outer loop; the same on the manual Mount queue. *)
Lemma reentrant_add_visited_by_same_process :
  callback reentrant_hooks Bound 1%nat 0 = add Bound 4%nat /\
  (exists s1 s2,
     add Bound 1%nat new_World = ([], Done s1) /\
     process reentrant_hooks 3 Bound 0 s1
       = ([Called Bound 1%nat 0; Called Bound 4%nat 0], Done s2)) /\
  (exists s1 s2,
     add Mount 1%nat new_World = ([], Done s1) /\
     process reentrant_hooks 3 Mount 0 s1
       = ([Called Mount 1%nat 0; Called Mount 4%nat 0], Done s2)).
Proof.
  split; [reflexivity|].
  split; eexists _, _; (split; [reflexivity|vm_compute; reflexivity]).
Qed.

(** C1, amended. Controllers that callbacks add to the queue during
    [process] (callbacks whose whole effect on the queue is to [add]: they
    do not drain it themselves) are not called by the walk over the
    snapshotted chain, which calls exactly the snapshotted controllers; they
    land on the live list, and the same [process] call drains them in the
    next round of its outer loop, then what that round added in the round
    after it, and so on until a round adds nothing: [process] returns only
    once [head] is undefined.  [rs] lists the rounds, the first of which is
    the queue [l] at the call.  This holds for all six phase queues. *)
Theorem reentrant_add_next_round hooks p flags (new : nat -> list nat) l rs s fuel :
  linked (queue_of p s) l ->
  rounds new l rs ->
  NoDup (concat rs) ->
  (forall d, d ∈ concat (drop 1 rs) -> unlinked (queue_of p s) d) ->
  (forall x, x ∈ concat rs -> enqueues hooks p flags x (new x)) ->
  (length (concat rs) + length rs < fuel)%nat ->
  (exists t s',
     process hooks fuel p flags s = (t, Done s') /\
     calls p t = map (fun c => (c, flags)) (concat rs) /\
     head (queue_of p s') = None /\
     (forall y, y ∈ concat rs -> unlinked (queue_of p s') y)) /\
  (forall n s0 t0 s0',
     process hooks n p flags s0 = (t0, Done s0') -> head (queue_of p s0') = None).
Proof.
  intros Hl Hr Hnd Hu Hcb Hfuel. split; [|intros n s0 t0 s0'; apply process_Done_head].
  destruct (process_rounds hooks new p flags rs l s fuel Hr Hl Hnd Hu Hcb Hfuel)
    as (t & s' & Hp & Ht & Hh & _ & Hx & _).
  by exists t, s'.
Qed.

Lemma reentrant_add_next_round_witness :
  (exists t s',
     process chain_hooks 9 Bound 0 abc_queued = (t, Done s') /\
     calls Bound t = [(1%nat, 0); (2%nat, 0); (3%nat, 0); (4%nat, 0); (5%nat, 0)] /\
     head (queue_of Bound s') = None /\
     (forall y, y ∈ [1; 2; 3; 4; 5]%nat -> unlinked (queue_of Bound s') y)) /\
  (forall n s0 t0 s0',
     process chain_hooks n Bound 0 s0 = (t0, Done s0') -> head (queue_of Bound s0') = None).
Proof.
  apply (reentrant_add_next_round chain_hooks Bound 0
           (fun c => match c with 1%nat => [4%nat] | 4%nat => [5%nat] | _ => [] end)
           [1; 2; 3]%nat [[1; 2; 3]; [4]; [5]]%nat abc_queued 9).
  - exact abc_queued_linked.
  - simpl. repeat split; discriminate.
  - apply (bool_decide_unpack (NoDup [1; 2; 3; 4; 5]%nat)). vm_compute. exact I.
  - intros d Hd. apply elem_of_cons in Hd as [->|Hd];
      [|apply list_elem_of_singleton in Hd as ->]; split; reflexivity.
  - intros x Hx.
    assert (E : x = 1%nat \/ x = 4%nat \/ (x <> 1%nat /\ x <> 4%nat)).
    { destruct x as [|[|[|[|[|x]]]]]; auto; right; right; split; discriminate. }
    destruct E as [->|[->|[H1 H4]]].
    + by apply add_enqueues.
    + by apply add_enqueues.
    + destruct x as [|[|[|[|[|x]]]]]; try done;
        apply leaves_queue_enqueues; intros s; by exists [], s.
  - simpl. lia.
Defined.

(** C2 fails on the code: after [add] of A = 1 and B = 2, [remove] of the
    tail B leaves [head] defined and [tail] undefined, so the invariant
    "[head] is undefined iff [tail] is undefined" is broken although one
    item is still queued. *)
Lemma remove_tail_breaks_endpoints :
  exists s,
    (add Bound 1%nat ;;; add Bound 2%nat ;;; remove Bound 2%nat) new_World = ([], Done s) /\
    head (queue_of Bound s) = Some 1%nat /\ tail (queue_of Bound s) = None /\
    ~ endpoints_agree (queue_of Bound s).
Proof.
  eexists. split; [vm_compute; reflexivity|]. simpl.
  split; [done|]. split; [done|]. intros [_ H]. by specialize (H eq_refl).
Qed.

(** C3. On a queue that holds at least two linked controllers, [remove] of
    the current tail reads the already cleared [prev] field and leaves
    [tail] undefined while [head] is still defined; the next [add] then
    takes the non-empty branch and throws on the undefined [tail].
    Symmetrically, [remove] of the current head leaves [head] undefined
    while [tail] is still defined, and a following [process] calls no
    callback at all. *)
Theorem remove_endpoint_strands_queue hooks p flags h mid c x s fuel :
  linked (queue_of p s) (h :: mid ++ [c]) ->
  (exists s1,
     remove p c s = ([], Done s1) /\
     unlinked (queue_of p s1) c /\
     tail (queue_of p s1) = None /\ head (queue_of p s1) = Some h /\
     exists s2, add p x s1 = ([], Raised TypeError s2)) /\
  (exists s1,
     remove p h s = ([], Done s1) /\
     unlinked (queue_of p s1) h /\
     head (queue_of p s1) = None /\ tail (queue_of p s1) = Some c /\
     process hooks (S fuel) p flags s1 = ([], Done s1)).
Proof.
  intros Hl. split.
  - destruct (q_remove_linked (queue_of p s) (h :: mid) c []) as (_ & _ & Hh & Ht & Hu);
      [by rewrite <- app_comm_cons|].
    exists (with_queue p (q_remove c (queue_of p s)) s).
    rewrite queue_of_with_queue. split; [done|]. split; [done|]. split; [done|].
    split; [done|].
    unfold add, q_add. rewrite queue_of_with_queue, Hh. simpl. rewrite Ht. eauto.
  - destruct (q_remove_linked (queue_of p s) [] h (mid ++ [c])) as (_ & _ & Hh & Ht & Hu);
      [done|].
    exists (with_queue p (q_remove h (queue_of p s)) s).
    rewrite queue_of_with_queue. split; [done|]. split; [done|]. split; [done|]. split.
    + rewrite Ht, last_snoc. by destruct mid.
    + apply process_done. by rewrite queue_of_with_queue.
Qed.

Lemma remove_endpoint_strands_queue_witness :
  add_each Bound [1; 2]%nat new_World = ([], Done ab_queued) /\
  (exists s1,
     remove Bound 2%nat ab_queued = ([], Done s1) /\
     unlinked (queue_of Bound s1) 2%nat /\
     tail (queue_of Bound s1) = None /\ head (queue_of Bound s1) = Some 1%nat /\
     exists s2, add Bound 3%nat s1 = ([], Raised TypeError s2)) /\
  (exists s1,
     remove Bound 1%nat ab_queued = ([], Done s1) /\
     unlinked (queue_of Bound s1) 1%nat /\
     head (queue_of Bound s1) = None /\ tail (queue_of Bound s1) = Some 2%nat /\
     process idle_hooks 1 Bound 0 s1 = ([], Done s1)).
Proof.
  split; [vm_compute; reflexivity|].
  apply (remove_endpoint_strands_queue idle_hooks Bound 0 1%nat [] 2%nat 3%nat ab_queued 0).
  exact ab_queued_linked.
Defined.

(** C4 fails on the code: when the closure passed to [inline] throws, [end]
    is not run.  With A, B, C queued and [depth] 0, [inline] of a throwing
    closure raises with [depth] left at 1 and no callback called; the same
    on the batch queue. *)
Lemma inline_throw_skips_end :
  (exists s',
     inline 0 1 idle_hooks 4 BoundQueue (raise (Thrown 0)) None abc_queued
       = ([], Raised (Thrown 0) s') /\
     depth_of BoundQueue abc_queued = 0 /\ depth_of BoundQueue s' = 1) /\
  (exists s',
     inline 0 1 idle_hooks 4 BatchQ (raise (Thrown 0)) None new_World
       = ([], Raised (Thrown 0) s') /\
     depth_of BatchQ new_World = 0 /\ depth_of BatchQ s' = 1).
Proof.
  split; eexists; (split; [vm_compute; reflexivity|done]).
Qed.

(** C4, amended. [inline(fn, flags)] is [begin(); fn(); end(flags)] with no
    protection around [fn]: when [fn] returns, the matching [end] runs on the
    state [fn] left; when [fn] throws (or does not return), the error goes to
    the caller of [inline] unchanged and [end] is not run. *)
Theorem inline_exit_paths none fromBatch hooks fuel a fn flags s :
  inline none fromBatch hooks fuel a fn flags s =
    (begin a ;;; fn ;;; end_ none fromBatch hooks fuel a flags) s /\
  inline none fromBatch hooks fuel a fn flags s =
    match fn (with_depth a (depth_of a s + 1) s) with
    | (t, Done s1) =>
        let (t2, o) := end_ none fromBatch hooks fuel a flags s1 in (t ++ t2, o)
    | (t, Raised e s1) => (t, Raised e s1)
    | (t, OutOfFuel) => (t, OutOfFuel)
    end.
Proof.
  split; [done|].
  unfold inline. rewrite (andThen_silent _ _ s _ eq_refl). unfold andThen.
  by destruct (fn _) as [t [s1|e s1|]].
Qed.

(** C5. When [end] of the Attach queue brings [depth] to 0, the Mount queue
    is processed first: only once that drain has returned, with the Mount
    queue empty, does the Attach queue's own [process] start, so every
    [afterAttach] call of that [process] comes after the whole Mount drain.
    If the Mount drain throws, no [afterAttach] call is made.  The same for
    Detach and Unmount. *)
Theorem end_drains_render_queue_first none fromBatch hooks fuel a render own flags s :
  drains_first a render own ->
  depth_of a s = 1 ->
  end_ none fromBatch hooks fuel a flags s =
    match process hooks fuel render (flags_or_none none flags) (with_depth a 0 s) with
    | (tm, Done sm) =>
        let (ta, o) := process hooks fuel own (flags_or_none none flags) sm in (tm ++ ta, o)
    | r => r
    end /\
  (forall tm sm,
     process hooks fuel render (flags_or_none none flags) (with_depth a 0 s) = (tm, Done sm) ->
     head (queue_of render sm) = None) /\
  ((forall c s0, calls own (fst (callback hooks render c (flags_or_none none flags) s0)) = []) ->
   calls own
     (fst (process hooks fuel render (flags_or_none none flags) (with_depth a 0 s))) = []).
Proof.
  intros Hpair Hd. split; [|split].
  - rewrite end_outer by done. by destruct Hpair.
  - intros tm sm H. by eapply process_Done_head.
  - intros Hcb. apply process_no_calls; [by destruct Hpair|done].
Qed.

Lemma end_drains_render_queue_first_witness :
  (begin AttachedQueue ;;; add_each Mount [1; 2]%nat ;;; add_each Attached [3; 4]%nat)
    new_World = ([], Done attach_pending) /\
  end_ 0 2 idle_hooks 3 AttachedQueue (Some 5) attach_pending =
    ([Called Mount 1%nat 5; Called Mount 2%nat 5;
      Called Attached 3%nat 5; Called Attached 4%nat 5], Done new_World) /\
  (forall tm sm,
     process idle_hooks 3 Mount (flags_or_none 0 (Some 5))
       (with_depth AttachedQueue 0 attach_pending) = (tm, Done sm) ->
     head (queue_of Mount sm) = None) /\
  calls Attached
    (fst (process idle_hooks 3 Mount (flags_or_none 0 (Some 5))
            (with_depth AttachedQueue 0 attach_pending))) = [].
Proof.
  split; [vm_compute; reflexivity|].
  destruct (end_drains_render_queue_first 0 2 idle_hooks 3 AttachedQueue Mount Attached
              (Some 5) attach_pending attach_mount eq_refl) as (H1 & H2 & H3).
  split; [|split; [exact H2|by apply H3]]. rewrite H1. vm_compute. reflexivity.
Defined.

(** C6. On an empty phase queue, after [add] of the distinct, unlinked
    controllers [cs] (no [process] or [remove] in between), with callbacks
    that return normally and do not re-enter the queue, one [process] calls
    the callback of every added controller exactly once, in the order of the
    [add] calls, and leaves the queue empty ([head] and [tail] undefined)
    with the link fields of every processed controller undefined. *)
Theorem add_then_process_fifo hooks p flags cs s fuel :
  head (queue_of p s) = None -> tail (queue_of p s) = None ->
  NoDup cs ->
  (forall c, c ∈ cs -> unlinked (queue_of p s) c) ->
  (forall c, c ∈ cs -> leaves_queue hooks p flags c) ->
  (length cs < fuel)%nat ->
  exists s1 t s2,
    add_each p cs s = ([], Done s1) /\
    process hooks fuel p flags s1 = (t, Done s2) /\
    calls p t = map (fun c => (c, flags)) cs /\
    head (queue_of p s2) = None /\ tail (queue_of p s2) = None /\
    (forall c, c ∈ cs -> unlinked (queue_of p s2) c).
Proof.
  intros Hh Ht Hnd Hu Hcb Hfuel.
  destruct (q_add_each_linked cs (queue_of p s) []) as (q1 & E & Hl & _ & _);
    [by apply linked_nil|done|done|].
  simpl in Hl. destruct Hl as [[_ [Hseg _]] [Hh1 Ht1]].
  destruct (process_quiet hooks p flags cs (with_queue p q1 s) fuel) as
    (t & s2 & Hp & Hc & Hh2 & Ht2 & _ & Hu2 & _);
    rewrite ?queue_of_with_queue; try done.
  { intros y Hy. by apply leaves_queue_enqueues, Hcb. }
  exists (with_queue p q1 s), t, s2.
  split; [by apply add_each_q|]. split; [done|]. split; [done|]. split; [done|].
  split; [|done].
  destruct cs as [|c cs]; [|by apply Ht2].
  destruct fuel as [|n]; [simpl in Hfuel; lia|].
  rewrite process_done in Hp by (by rewrite queue_of_with_queue).
  injection Hp as _ <-. by rewrite queue_of_with_queue, Ht1.
Qed.

Lemma add_then_process_fifo_witness :
  exists s1 t s2,
    add_each Bound [1; 2; 3]%nat new_World = ([], Done s1) /\
    process idle_hooks 4 Bound 0 s1 = (t, Done s2) /\
    calls Bound t = [(1%nat, 0); (2%nat, 0); (3%nat, 0)] /\
    head (queue_of Bound s2) = None /\ tail (queue_of Bound s2) = None /\
    (forall c, c ∈ [1; 2; 3]%nat -> unlinked (queue_of Bound s2) c).
Proof.
  apply (add_then_process_fifo idle_hooks Bound 0 [1; 2; 3]%nat new_World 4).
  - reflexivity.
  - reflexivity.
  - apply (bool_decide_unpack (NoDup [1; 2; 3]%nat)). vm_compute. exact I.
  - intros c _. apply unlinked_new.
  - intros c _. apply idle_hooks_leave.
  - simpl. lia.
Defined.





(** C9. [begin] increments [depth]; [end] decrements it and runs the drain
    exactly when the decremented value is 0, otherwise it calls nothing.
    Around any run [w] of nested [begin]/[end] pairs, an outer [begin] at
    depth 0 and its matching [end]: the inner [end]s drain nothing, and the
    outermost [end] performs the single drain (begin/begin/end/end is
    [w = [true; false]]).  The drain is the queue's [process]: on a queue
    that holds the controllers [l], the whole sequence makes no call before
    its last [end], which calls every controller of [l] once, in order, with
    the flags of that [end]; on the batch queue it flushes every queued
    batchable once, with [flags | fromBatch]. *)
Theorem nested_begin_end_coalesce none fromBatch hooks fuel a flags w s s0 :
  depth_of a s0 = 0 -> stays_open 1 w -> depth_after 1 w = 1 ->
  (exists s', begin a s = ([], Done s') /\ depth_of a s' = depth_of a s + 1) /\
  end_ none fromBatch hooks fuel a flags s =
    (if decide (depth_of a s = 1)
     then settle fromBatch hooks fuel a (flags_or_none none flags) (with_depth a 0 s)
     else ([], Done (with_depth a (depth_of a s - 1) s))) /\
  (begin a ;;; begin_end_run none fromBatch hooks fuel a flags w) s0 =
    ([], Done (with_depth a 1 s0)) /\
  (begin a ;;; begin_end_run none fromBatch hooks fuel a flags w ;;;
   end_ none fromBatch hooks fuel a flags) s0 =
    settle fromBatch hooks fuel a (flags_or_none none flags) s0 /\
  (forall p l,
     own_phase a = Some p ->
     (forall r, render_phase a = Some r -> head (queue_of r s0) = None) ->
     linked (queue_of p s0) l ->
     (forall c, c ∈ l -> leaves_queue hooks p (flags_or_none none flags) c) ->
     (length l < fuel)%nat ->
     exists t s',
       (begin a ;;; begin_end_run none fromBatch hooks fuel a flags w ;;;
        end_ none fromBatch hooks fuel a flags) s0 = (t, Done s') /\
       calls p t = map (fun c => (c, flags_or_none none flags)) l /\
       depth_of a s' = 0 /\ head (queue_of p s') = None) /\
  (forall xs,
     a = BatchQ -> queue (batch_of s0) = xs ->
     (forall x, x ∈ xs ->
        flush_enqueues hooks (js_bitor (flags_or_none none flags) fromBatch) x []) ->
     (1 < fuel)%nat ->
     exists t s',
       (begin a ;;; begin_end_run none fromBatch hooks fuel a flags w ;;;
        end_ none fromBatch hooks fuel a flags) s0 = (t, Done s') /\
       flushes t =
         map (fun x => (x, js_bitor (flags_or_none none flags) fromBatch)) xs /\
       depth_of a s' = 0 /\ queue (batch_of s') = []).
Proof.
  intros H0 Hw Hb.
  assert (Hrun : (begin a ;;; begin_end_run none fromBatch hooks fuel a flags w) s0 =
                 ([], Done (with_depth a 1 s0))).
  { rewrite (andThen_silent _ _ s0 _ eq_refl).
    rewrite (begin_end_run_open none fromBatch hooks fuel a flags w 1).
    - by rewrite Hb, with_depth_twice.
    - done.
    - rewrite depth_of_with_depth, H0. lia. }
  assert (Hfull : (begin a ;;; begin_end_run none fromBatch hooks fuel a flags w ;;;
                   end_ none fromBatch hooks fuel a flags) s0 =
                  end_ none fromBatch hooks fuel a flags (with_depth a 1 s0)).
  { unfold andThen in Hrun |- *. simpl in Hrun |- *.
    destruct (begin_end_run none fromBatch hooks fuel a flags w _) as [t1 o1].
    injection Hrun as -> ->.
    by destruct (end_ _ _ _ _ _ _ _) as [t o]. }
  split; [|split; [|split; [|split; [|split]]]].
  - eexists. split; [done|]. by rewrite depth_of_with_depth.
  - case_decide; [by apply end_outer|by apply end_inner].
  - done.
  - rewrite Hfull, end_outer by apply depth_of_with_depth.
    by rewrite with_depth_twice, <- H0, with_depth_same.
  - intros p l Hp Hr Hl Hcb Hfuel. rewrite Hfull.
    apply (end_drains_own none fromBatch hooks fuel a p flags l); try done.
    + apply depth_of_with_depth.
    + intros r Hrr. pose proof (own_render_ne a p r Hp Hrr) as Hne.
      rewrite (own_phase_with_depth a p) by done.
      rewrite queue_of_with_queue_ne by done. by apply Hr.
    + rewrite (own_phase_with_depth a p) by done. rewrite queue_of_with_queue.
      by apply linked_set_depth.
  - intros xs -> Hq Hcb Hfuel. rewrite Hfull.
    destruct (end_flushes_batch none fromBatch hooks fuel flags xs (with_depth BatchQ 1 s0))
      as (t & s' & He & Ht & Hb'); try done.
    exists t, s'. split; [done|]. split; [done|]. simpl. by rewrite Hb'.
Qed.

Lemma nested_begin_end_coalesce_witness :
  (begin BoundQueue ;;;
   begin_end_run 0 1 idle_hooks 4 BoundQueue (Some 5) [true; false; true; true; false; false])
    abc_queued = ([], Done (with_depth BoundQueue 1 abc_queued)) /\
  (exists s',
     (begin BoundQueue ;;;
      begin_end_run 0 1 idle_hooks 4 BoundQueue (Some 5)
        [true; false; true; true; false; false] ;;;
      end_ 0 1 idle_hooks 4 BoundQueue (Some 5)) abc_queued =
       ([Called Bound 1%nat 5; Called Bound 2%nat 5; Called Bound 3%nat 5], Done s') /\
     depth_of BoundQueue s' = 0 /\ head (queue_of Bound s') = None) /\
  (exists t s',
     (begin BoundQueue ;;;
      begin_end_run 0 1 idle_hooks 4 BoundQueue (Some 5)
        [true; false; true; true; false; false] ;;;
      end_ 0 1 idle_hooks 4 BoundQueue (Some 5)) abc_queued = (t, Done s') /\
     calls Bound t = [(1%nat, 5); (2%nat, 5); (3%nat, 5)] /\
     depth_of BoundQueue s' = 0 /\ head (queue_of Bound s') = None) /\
  (exists t s',
     (begin BatchQ ;;;
      begin_end_run 0 1 idle_hooks 4 BatchQ (Some 4) [true; false] ;;;
      end_ 0 1 idle_hooks 4 BatchQ (Some 4)) abc_queued_and_batched = (t, Done s') /\
     flushes t = [(1%nat, 5); (2%nat, 5); (3%nat, 5)] /\
     depth_of BatchQ s' = 0 /\ queue (batch_of s') = []).
Proof.
  destruct (nested_begin_end_coalesce 0 1 idle_hooks 4 BoundQueue (Some 5)
              [true; false; true; true; false; false] abc_queued abc_queued)
    as (_ & _ & H3 & H4 & H5 & _).
  - reflexivity.
  - simpl. lia.
  - reflexivity.
  - destruct (nested_begin_end_coalesce 0 1 idle_hooks 4 BatchQ (Some 4)
                [true; false] abc_queued_and_batched abc_queued_and_batched)
      as (_ & _ & _ & _ & _ & H6).
    + reflexivity.
    + simpl. lia.
    + reflexivity.
    + split; [exact H3|]. split; [|split].
      * eexists. rewrite H4. split; [vm_compute; reflexivity|]. split; reflexivity.
      * apply (H5 Bound [1; 2; 3]%nat).
        -- reflexivity.
        -- intros r Hr. discriminate Hr.
        -- exact abc_queued_linked.
        -- intros c _. apply idle_hooks_leave.
        -- simpl. lia.
      * apply (H6 [1; 2; 3]%nat).
        -- reflexivity.
        -- reflexivity.
        -- intros x _ s. exists [], s. split; [reflexivity|]. split; [reflexivity|].
           rewrite app_nil_r. by destruct (batch_of s).
        -- lia.
Defined.

(** C10. [remove] of a queued controller before [process] (that is, before
    the snapshot) keeps its callback from being called by that [process];
    when the removed controller is not the first of the queue, [process]
    calls exactly the remaining controllers, in their order (A, B, C queued
    and B removed: A then C). *)
Theorem remove_before_process hooks p flags l1 c l2 s fuel :
  linked (queue_of p s) (l1 ++ c :: l2) ->
  (forall y, y ∈ l1 ++ l2 -> leaves_queue hooks p flags y) ->
  (length (l1 ++ l2) < fuel)%nat ->
  exists s1 t s2,
    remove p c s = ([], Done s1) /\
    process hooks fuel p flags s1 = (t, Done s2) /\
    (forall f, (c, f) ∉ calls p t) /\
    (l1 <> [] -> calls p t = map (fun y => (y, flags)) (l1 ++ l2)).
Proof.
  intros Hl Hcb Hfuel.
  destruct (q_remove_linked _ _ _ _ Hl) as (Hnd & Hseg & Hh & _ & _).
  assert (Hc : c ∉ l1 ++ l2).
  { destruct Hl as [[Hnd' _] _]. rewrite elem_of_app. intros [H|H].
    - apply (NoDup_app_disjoint _ _ c Hnd' H). by left.
    - apply NoDup_app_r, NoDup_cons_fresh in Hnd'. done. }
  set (s1 := with_queue p (q_remove c (queue_of p s)) s).
  destruct (process_quiet hooks p flags
              (match l1 with [] => [] | _ => l1 ++ l2 end) s1 fuel) as
    (t & s2 & Hp & Hcalls & _); unfold s1; rewrite ?queue_of_with_queue.
  - destruct l1; [simpl; lia|done].
  - rewrite Hh. by destruct l1.
  - by destruct l1.
  - destruct l1; [apply NoDup_nil_2|done].
  - intros y Hy. apply leaves_queue_enqueues, Hcb. by destruct l1; [apply elem_of_nil in Hy|].
  - exists s1, t, s2. split; [done|]. split; [done|]. split.
    + intros f Hin. rewrite Hcalls in Hin. apply list_elem_of_fmap in Hin as (y & [= <- _] & Hy).
      apply Hc. by destruct l1; [apply elem_of_nil in Hy|].
    + intros Hne. rewrite Hcalls. by destruct l1.
Qed.

Lemma remove_before_process_witness :
  add_each Bound [1; 2; 3]%nat new_World = ([], Done abc_queued) /\
  exists s1 t s2,
    remove Bound 2%nat abc_queued = ([], Done s1) /\
    process idle_hooks 3 Bound 0 s1 = (t, Done s2) /\
    (forall f, (2%nat, f) ∉ calls Bound t) /\
    ([1%nat] <> [] -> calls Bound t = [(1%nat, 0); (3%nat, 0)]).
Proof.
  split; [vm_compute; reflexivity|].
  apply (remove_before_process idle_hooks Bound 0 [1%nat] 2%nat [3%nat] abc_queued 3).
  - exact abc_queued_linked.
  - intros y _. apply idle_hooks_leave.
  - simpl. lia.
Defined.

(** * Further properties of the queues *)

(** ** [remove] on a chain *)

(** [remove] of an item of a chain: both directions skip the removed item,
    whose own fields are cleared.  [b] is what the first item points back
    to. *)
Lemma q_remove_chained q b l1 c l2 :
  NoDup (l1 ++ c :: l2) ->
  seg_next (next q) (l1 ++ c :: l2) None ->
  seg_prev (prev q) b (l1 ++ c :: l2) ->
  (forall y, b = Some y -> y ∉ l1 ++ c :: l2) ->
  seg_next (next (q_remove c q)) (l1 ++ l2) None /\
  seg_prev (prev (q_remove c q)) b (l1 ++ l2) /\
  unlinked (q_remove c q) c.
Proof.
  intros Hnd Hn Hp Hb.
  assert (Hc1 : c ∉ l1).
  { intros Hin. apply (NoDup_app_disjoint _ _ c Hnd Hin). by left. }
  assert (Hc2 : c ∉ l2).
  { by apply NoDup_app_r, NoDup_cons_fresh in Hnd. }
  assert (H12 : forall y, y ∈ l1 -> y ∉ l2).
  { intros y H1 H2. apply (NoDup_app_disjoint _ _ y Hnd H1). by right. }
  apply seg_next_app in Hn as [Hn1 [Hnc Hn2]].
  apply seg_prev_app in Hp as [Hp1 [Hpc Hp2]].
  set (pc := match last l1 with None => b | o => o end) in *.
  assert (Hpcl : forall y, pc = Some y -> y <> c /\ y ∉ l2).
  { intros y Hy. unfold pc in Hy. destruct (last l1) as [z|] eqn:Ez.
    - injection Hy as ->. apply last_Some_elem_of in Ez. split; [by intros ->|by apply H12].
    - specialize (Hb y Hy). rewrite elem_of_app, elem_of_cons in Hb. split.
      + intros ->. apply Hb. right. by left.
      + intros Hin. apply Hb. right. by right. }
  assert (Hsn : stitched_next c q !! c = next q !! c).
  { unfold stitched_next. rewrite Hpc. destruct pc as [y|] eqn:Epc; [|done].
    rewrite lookup_set_link, decide_False; [done|]. by apply Hpcl. }
  rewrite q_remove_unfold. simpl.
  split; [|split; [|split; simpl; apply lookup_delete_eq]].
  - apply seg_next_app. split.
    + unfold stitched_next. rewrite Hpc. subst pc.
      destruct l1 as [|z l1' _] using rev_ind; [done|].
      rewrite last_snoc in *. apply seg_next_app in Hn1 as [Hn1 [Hnz _]].
      apply seg_next_app. simpl. split.
      * eapply seg_next_frame; [|exact Hn1]. intros y Hy.
        rewrite lookup_delete_ne, lookup_set_link
          by (intros ->; apply Hc1, elem_of_app; by left).
        rewrite decide_False; [done|]. intros E.
        apply NoDup_app in Hnd as (Hd1 & _). apply NoDup_app in Hd1 as (_ & H & _).
        apply (H y Hy). rewrite <- E. by left.
      * rewrite lookup_delete_ne, lookup_set_link
          by (intros ->; apply Hc1, elem_of_app; right; by left).
        rewrite decide_True by done. rewrite Hnc. split; [|done]. by destruct l2.
    + eapply seg_next_frame; [|exact Hn2]. intros y Hy.
      rewrite lookup_delete_ne by (by intros ->). unfold stitched_next. rewrite Hpc.
      destruct pc as [z|] eqn:Epc; [|done].
      rewrite lookup_set_link, decide_False; [done|]. intros ->.
      by apply (Hpcl y).
  - unfold stitched_prev. rewrite Hsn, Hnc, Hpc.
    apply seg_prev_app. fold pc. split.
    + eapply seg_prev_frame; [|exact Hp1]. intros y Hy.
      rewrite lookup_delete_ne by (by intros ->).
      destruct l2 as [|nc l2']; [done|].
      rewrite lookup_set_link, decide_False; [done|]. intros ->.
      apply (H12 y Hy). by left.
    + destruct l2 as [|nc l2']; [done|]. destruct Hp2 as [Hnc' Hp2]. simpl. split.
      * rewrite lookup_delete_ne, lookup_set_link by (intros ->; apply Hc2; by left).
        by rewrite decide_True.
      * eapply seg_prev_frame; [|exact Hp2]. intros y Hy.
        rewrite lookup_delete_ne by (intros ->; apply Hc2; by right).
        rewrite lookup_set_link, decide_False; [done|]. intros ->.
        apply NoDup_app_r in Hnd. apply NoDup_cons in Hnd as [_ Hnd].
        by apply NoDup_cons_fresh in Hnd.
Qed.

Lemma q_remove_absent c q :
  unlinked q c -> head q <> Some c -> tail q <> Some c -> q_remove c q = q.
Proof.
  intros [Hn Hp] Hh Ht. rewrite q_remove_unfold.
  unfold stitched_prev, stitched_next. rewrite Hp, Hn.
  rewrite !decide_False by done. rewrite !delete_id by done. by destruct q.
Qed.

Lemma q_remove_gone c q :
  unlinked (q_remove c q) c /\ head (q_remove c q) <> Some c /\ tail (q_remove c q) <> Some c.
Proof.
  rewrite q_remove_unfold. simpl. split; [split; apply lookup_delete_eq|].
  split; case_decide; done.
Qed.

Lemma remove_absent p c s :
  unlinked (queue_of p s) c ->
  head (queue_of p s) <> Some c -> tail (queue_of p s) <> Some c ->
  remove p c s = ([], Done s).
Proof.
  intros Hu Hh Ht. unfold remove.
  by rewrite q_remove_absent, with_queue_queue_of.
Qed.

(** X1. [remove] of a queued controller that is neither the head nor the
    tail, or that is the only one queued, keeps the queue well formed: it
    then holds the other controllers in their order, and both link fields of
    the removed controller are undefined. *)
Theorem remove_inner_keeps_queue p l1 c l2 s :
  linked (queue_of p s) (l1 ++ c :: l2) ->
  (l1 = [] <-> l2 = []) ->
  exists s',
    remove p c s = ([], Done s') /\
    linked (queue_of p s') (l1 ++ l2) /\
    unlinked (queue_of p s') c /\
    depth (queue_of p s') = depth (queue_of p s).
Proof.
  intros Hl Hends.
  destruct (q_remove_linked _ _ _ _ Hl) as (Hnd & _ & Hh & Ht & _).
  destruct Hl as [[Hnd0 [Hn Hp]] _].
  destruct (q_remove_chained _ None l1 c l2 Hnd0 Hn Hp) as (Hn' & Hp' & Hu); [done|].
  exists (with_queue p (q_remove c (queue_of p s)) s).
  rewrite queue_of_with_queue. split; [done|].
  split; [|split; [done|by rewrite q_remove_unfold]].
  split; [done|]. split.
  - rewrite Hh. destruct l1 as [|h l1']; [|done].
    by rewrite (proj1 Hends eq_refl).
  - rewrite Ht. destruct l2 as [|y l2']; [by rewrite (proj2 Hends eq_refl)|].
    rewrite last_app. by destruct (last (y :: l2')) eqn:E; [|apply last_None in E].
Qed.

Lemma remove_inner_keeps_queue_witness :
  exists s',
    remove Bound 2%nat abc_queued = ([], Done s') /\
    linked (queue_of Bound s') ([1%nat] ++ [3%nat]) /\
    unlinked (queue_of Bound s') 2%nat /\
    depth (queue_of Bound s') = depth (queue_of Bound abc_queued).
Proof.
  apply (remove_inner_keeps_queue Bound [1%nat] 2%nat [3%nat] abc_queued).
  - exact abc_queued_linked.
  - split; discriminate.
Defined.

(** X2. [remove] of a controller that is not queued (both link fields
    undefined, neither head nor tail) changes nothing at all. *)
Theorem remove_absent_is_noop p c s :
  unlinked (queue_of p s) c ->
  head (queue_of p s) <> Some c -> tail (queue_of p s) <> Some c ->
  remove p c s = ([], Done s).
Proof. apply remove_absent. Qed.

Lemma remove_absent_is_noop_witness :
  remove Bound 7%nat abc_queued = ([], Done abc_queued).
Proof.
  apply (remove_absent_is_noop Bound 7%nat abc_queued).
  - split; reflexivity.
  - discriminate.
  - discriminate.
Defined.

(** X3. [remove] is idempotent on every queue state: a second [remove] of
    the same controller changes nothing more. *)
Theorem remove_twice p c s :
  (remove p c ;;; remove p c) s = remove p c s.
Proof.
  rewrite (andThen_silent _ _ s _ eq_refl).
  destruct (q_remove_gone c (queue_of p s)) as (Hu & Hh & Ht).
  apply remove_absent; by rewrite queue_of_with_queue.
Qed.

(** ** Walks over a segment *)

Section Segment.

Variable hooks : Hooks.
Variable p : phase.
Variable flags : Z.

(** Where a walk goes on after a segment whose last [next] field is [e]. *)
Lemma walk_leaf c e s n :
  next (queue_of p s) !! c = e ->
  leaves_queue hooks p flags c ->
  exists t s1,
    calls p t = [(c, flags)] /\
    walk hooks (S n) p flags c s =
      (let (t2, o) :=
         match e with Some y => walk hooks n p flags y s1 | None => done s1 end
       in (t ++ t2, o)) /\
    queue_of p s1 = clear_links c (queue_of p s).
Proof.
  intros He Hcb. destruct (Hcb s) as (t & s' & Hc & Ht & Hq).
  exists (Called p c flags :: t), (with_queue p (clear_links c (queue_of p s)) s').
  split; [simpl; by rewrite decide_True, Ht|]. split; [|by rewrite queue_of_with_queue].
  simpl. unfold andThen, invoke, unlink. rewrite Hc, Hq, He.
  fold (clear_links c (queue_of p s)). by destruct e.
Qed.

Lemma walk_segment l : forall c e s n,
  NoDup (c :: l) ->
  seg_next (next (queue_of p s)) (c :: l) e ->
  (forall y, y ∈ c :: l -> leaves_queue hooks p flags y) ->
  exists t s1,
    calls p t = map (fun y => (y, flags)) (c :: l) /\
    walk hooks (length (c :: l) + n) p flags c s =
      (let (t2, o) :=
         match e with Some y => walk hooks n p flags y s1 | None => done s1 end
       in (t ++ t2, o)) /\
    head (queue_of p s1) = head (queue_of p s) /\
    tail (queue_of p s1) = tail (queue_of p s) /\
    depth (queue_of p s1) = depth (queue_of p s) /\
    (forall y, y ∈ c :: l -> unlinked (queue_of p s1) y) /\
    (forall y, y ∉ c :: l ->
       next (queue_of p s1) !! y = next (queue_of p s) !! y /\
       prev (queue_of p s1) !! y = prev (queue_of p s) !! y).
Proof.
  induction l as [|y l IH]; intros c e s n Hnd [Hc Hseg] Hcb.
  - destruct (walk_leaf c e s n Hc) as (t & s1 & Ht & Hw & Hq); [apply Hcb; by left|].
    exists t, s1. rewrite Hq. split; [done|]. split; [done|].
    split; [done|]. split; [done|]. split; [done|]. split.
    + intros z Hz. apply list_elem_of_singleton in Hz as ->.
      split; simpl; apply lookup_delete_eq.
    + intros z Hz. simpl. rewrite !lookup_delete_ne; [done| |];
        intros ->; apply Hz; by left.
  - destruct (walk_leaf c (Some y) s (length (y :: l) + n) Hc) as (t & s1 & Ht & Hw & Hq);
      [apply Hcb; by left|].
    apply NoDup_cons in Hnd as [Hcl Hnd].
    destruct (IH y e s1 n Hnd) as (t2 & s2 & Ht2 & Hw2 & Hh2 & Htl2 & Hd2 & Hu2 & Hf2).
    { rewrite Hq. apply (seg_next_frame (next (queue_of p s))); [|exact Hseg].
      intros z Hz. simpl. rewrite lookup_delete_ne; [done|]. by intros ->. }
    { intros z Hz. apply Hcb. by right. }
    exists (t ++ t2), s2. rewrite Hq in Hh2, Htl2, Hd2, Hf2. simpl in Hh2, Htl2, Hd2, Hf2.
    split; [by rewrite calls_app, Ht, Ht2|]. split.
    { change (length (c :: y :: l) + n)%nat with (S (length (y :: l) + n)).
      rewrite Hw, Hw2. destruct (match e with Some _ => _ | None => _ end) as [t3 o].
      by rewrite (assoc_L (++)). }
    split; [done|]. split; [done|]. split; [done|]. split.
    + intros z Hz. apply elem_of_cons in Hz as [->|Hz]; [|by apply Hu2].
      unfold unlinked. destruct (Hf2 c Hcl) as [-> ->].
      split; apply lookup_delete_eq.
    + intros z Hz. destruct (Hf2 z) as [-> ->].
      * intros Hin. apply Hz. by right.
      * rewrite !lookup_delete_ne; [done| |]; intros ->; apply Hz; by left.
Qed.

End Segment.

Lemma andThen_prefix (m1 m1' m2 : action) t1 s s1 :
  m1 s = (let (t2, o) := m1' s1 in (t1 ++ t2, o)) ->
  (m1 ;;; m2) s = (let (t2, o) := (m1' ;;; m2) s1 in (t1 ++ t2, o)).
Proof.
  intros H. unfold andThen. rewrite H.
  destruct (m1' s1) as [t2 [s2|e s2|]]; [|done|done].
  destruct (m2 s2) as [t3 o]. by rewrite (assoc_L (++)).
Qed.

Section Reach.

Variable hooks : Hooks.
Variable p : phase.
Variable flags : Z.

(** A drain up to the callback of [x]: the controllers [l1] queued before
    [x] do not re-enter the queue. *)
Lemma process_reaches l1 x l2 s n :
  head (queue_of p s) = hd_error (l1 ++ x :: l2) ->
  NoDup (l1 ++ x :: l2) ->
  seg_next (next (queue_of p s)) (l1 ++ x :: l2) None ->
  (forall y, y ∈ l1 -> leaves_queue hooks p flags y) ->
  exists t1 s1,
    calls p t1 = map (fun y => (y, flags)) l1 /\
    process hooks (S (length l1 + n)) p flags s =
      (let (t2, o) :=
         (walk hooks n p flags x ;;; process hooks (length l1 + n) p flags) s1
       in (t1 ++ t2, o)) /\
    head (queue_of p s1) = None /\ tail (queue_of p s1) = None /\
    depth (queue_of p s1) = depth (queue_of p s) /\
    (forall y, y ∈ l1 -> unlinked (queue_of p s1) y) /\
    (forall y, y ∉ l1 ->
       next (queue_of p s1) !! y = next (queue_of p s) !! y /\
       prev (queue_of p s1) !! y = prev (queue_of p s) !! y).
Proof.
  intros Hh Hnd Hseg Hcb.
  set (s0 := with_queue p (set_tail None (set_head None (queue_of p s))) s).
  destruct l1 as [|c l1].
  - exists [], s0. unfold s0. rewrite queue_of_with_queue.
    split; [done|]. split.
    { cbn [process]. rewrite Hh. simpl. fold s0.
      by destruct ((walk hooks n p flags x ;;; process hooks n p flags) s0). }
    split; [done|]. split; [done|]. split; [done|]. split; [|done].
    intros y Hy. by apply elem_of_nil in Hy.
  - simpl in Hseg, Hnd. apply seg_next_app with (l1 := c :: l1) in Hseg as [Hseg1 _].
    destruct (walk_segment hooks p flags l1 c (Some x) s0 n) as
      (t1 & s1 & Ht1 & Hw & Hh1 & Htl1 & Hd1 & Hu1 & Hf1).
    { change (c :: l1 ++ x :: l2) with ((c :: l1) ++ x :: l2) in Hnd.
      by apply NoDup_app in Hnd as (H & _). }
    { unfold s0. by rewrite queue_of_with_queue. }
    { done. }
    unfold s0 in Hh1, Htl1, Hd1, Hf1. rewrite queue_of_with_queue in Hh1, Htl1, Hd1, Hf1.
    exists t1, s1. split; [done|]. split; [|done].
    cbn [process]. rewrite Hh. simpl hd_error. cbv iota. fold s0.
    by apply andThen_prefix.
Qed.

(** The state after the callback of [x] has removed [x] itself. *)
Lemma walk_self_remove x s n :
  (forall s0, callback hooks p x flags s0 = remove p x s0) ->
  walk hooks (S n) p flags x s =
    ([Called p x flags],
     Done (with_queue p (clear_links x (q_remove x (queue_of p s))) s)).
Proof.
  intros Hcb. simpl. unfold andThen, invoke, unlink. rewrite Hcb. unfold remove.
  rewrite queue_of_with_queue, with_queue_twice.
  destruct (q_remove_gone x (queue_of p s)) as [[-> _] _]. done.
Qed.

End Reach.

(** X4. A callback that removes its own controller from the queue being
    drained ends the walk: [process] returns normally after that call, and the
    controllers queued behind it are never called by this [process]; the
    queue is empty afterwards. *)
Theorem self_remove_truncates_drain hooks p flags l1 x l2 s fuel :
  linked (queue_of p s) (l1 ++ x :: l2) ->
  (forall y, y ∈ l1 -> leaves_queue hooks p flags y) ->
  (forall s0, callback hooks p x flags s0 = remove p x s0) ->
  (length l1 + 1 < fuel)%nat ->
  exists t s',
    process hooks fuel p flags s = (t, Done s') /\
    calls p t = map (fun y => (y, flags)) (l1 ++ [x]) /\
    head (queue_of p s') = None /\ tail (queue_of p s') = None.
Proof.
  intros [[Hnd [Hseg _]] [Hh _]] Hcb Hx Hfuel.
  replace fuel with (S (length l1 + S (fuel - length l1 - 2)))%nat by lia.
  set (n := (fuel - length l1 - 2)%nat).
  destruct (process_reaches hooks p flags l1 x l2 s (S n) Hh Hnd Hseg Hcb) as
    (t1 & s1 & Ht1 & Hp & Hh1 & Htl1 & _).
  rewrite Hp. unfold andThen. rewrite walk_self_remove by done.
  replace (length l1 + S n)%nat with (S (length l1 + n)) by lia.
  rewrite process_done.
  - eexists _, _. split; [done|]. rewrite queue_of_with_queue.
    split; [|split].
    + rewrite calls_app, Ht1, map_app. simpl. by rewrite decide_True.
    + simpl. rewrite q_remove_unfold. simpl. by rewrite Hh1.
    + simpl. rewrite q_remove_unfold. simpl. by rewrite Htl1.
  - rewrite queue_of_with_queue. simpl. rewrite q_remove_unfold. simpl. by rewrite Hh1.
Qed.

Section Rest.

Variable hooks : Hooks.
Variable p : phase.
Variable flags : Z.

(** One step of the walk, whatever the callback did. *)
Lemma walk_after_callback x rest s tx s2 n :
  callback hooks p x flags s = (tx, Done s2) ->
  next (queue_of p s2) !! x = hd_error rest ->
  walk hooks (S n) p flags x s =
    (let (t2, o) :=
       continue hooks p flags n rest
         (with_queue p (clear_links x (queue_of p s2)) s2)
     in (Called p x flags :: tx ++ t2, o)).
Proof.
  intros Hc Hn. simpl. unfold andThen, invoke, unlink. rewrite Hc, Hn.
  fold (clear_links x (queue_of p s2)). by destruct rest.
Qed.

(** The rest of a walk whose callbacks do not re-enter the queue. *)
Lemma continue_leaves rest s n :
  NoDup rest ->
  seg_next (next (queue_of p s)) rest None ->
  (forall y, y ∈ rest -> leaves_queue hooks p flags y) ->
  exists t s1,
    continue hooks p flags (length rest + n) rest s = (t, Done s1) /\
    calls p t = map (fun y => (y, flags)) rest /\
    head (queue_of p s1) = head (queue_of p s) /\
    tail (queue_of p s1) = tail (queue_of p s) /\
    (forall y, y ∈ rest -> unlinked (queue_of p s1) y).
Proof.
  intros Hnd Hseg Hcb. destruct rest as [|c l].
  - exists [], s. split; [done|]. split; [done|]. split; [done|]. split; [done|].
    intros y Hy. by apply elem_of_nil in Hy.
  - destruct (walk_segment hooks p flags l c None s n Hnd Hseg Hcb) as
      (t & s1 & Ht & Hw & Hh & Htl & _ & Hu & _).
    exists t, s1. cbn [continue]. rewrite Hw. simpl. by rewrite app_nil_r.
Qed.

End Rest.

(** X5. [remove] of a controller that is still waiting in the snapshot,
    called from the callback of an earlier controller of the same drain,
    takes effect: [process] skips the removed controller and calls all the
    others, in their order. *)
Theorem remove_pending_during_drain hooks p flags l1 x l2 y l3 s fuel :
  linked (queue_of p s) (l1 ++ x :: l2 ++ y :: l3) ->
  (forall z, z ∈ l1 ++ l2 ++ l3 -> leaves_queue hooks p flags z) ->
  (forall s0, callback hooks p x flags s0 = remove p y s0) ->
  (length l1 + length (l2 ++ l3) + 2 < fuel)%nat ->
  exists t s',
    process hooks fuel p flags s = (t, Done s') /\
    calls p t = map (fun z => (z, flags)) (l1 ++ x :: l2 ++ l3) /\
    head (queue_of p s') = None.
Proof.
  intros [[Hnd [Hseg Hprev]] [Hh _]] Hcb Hx Hfuel.
  set (n := (fuel - length l1 - length (l2 ++ l3) - 3)%nat).
  replace fuel with (S (length l1 + S (length (l2 ++ l3) + S n)))%nat by lia.
  destruct (process_reaches hooks p flags l1 x (l2 ++ y :: l3) s
              (S (length (l2 ++ l3) + S n)) Hh Hnd Hseg) as
    (t1 & s1 & Ht1 & Hp & Hh1 & Htl1 & _ & _ & Hf1).
  { intros z Hz. apply Hcb. apply elem_of_app. by left. }
  (* the chain behind the visited prefix, as the callback of [x] finds it *)
  assert (Hout : forall z, z ∈ x :: l2 ++ y :: l3 -> z ∉ l1).
  { intros z Hz Hz1. exact (NoDup_app_disjoint _ _ z Hnd Hz1 Hz). }
  apply seg_next_app in Hseg as [_ Hseg]. apply seg_prev_app in Hprev as [_ Hprev].
  set (b := match last l1 with None => None | o => o end) in *.
  assert (Hseg1 : seg_next (next (queue_of p s1)) ((x :: l2) ++ y :: l3) None).
  { eapply seg_next_frame; [|exact Hseg]. intros z Hz. by apply Hf1, Hout. }
  assert (Hprev1 : seg_prev (prev (queue_of p s1)) b ((x :: l2) ++ y :: l3)).
  { eapply seg_prev_frame; [|exact Hprev]. intros z Hz. by apply Hf1, Hout. }
  assert (Hnd1 : NoDup ((x :: l2) ++ y :: l3)) by (by apply NoDup_app_r in Hnd).
  destruct (q_remove_chained _ b (x :: l2) y l3 Hnd1 Hseg1 Hprev1) as (Hn' & _ & _).
  { intros z Hz Hin. unfold b in Hz. destruct (last l1) as [w|] eqn:Ew; [|done].
    injection Hz as ->. apply (Hout z Hin). by apply last_Some_elem_of. }
  simpl in Hn'. destruct Hn' as [Hnx Hn'].
  rewrite Hp. unfold andThen at 1.
  rewrite (walk_after_callback hooks p flags x (l2 ++ l3) s1 []
             (with_queue p (q_remove y (queue_of p s1)) s1)).
  2: { by rewrite Hx. }
  2: { rewrite queue_of_with_queue, Hnx. by destruct (l2 ++ l3). }
  rewrite queue_of_with_queue, with_queue_twice.
  destruct (continue_leaves hooks p flags (l2 ++ l3)
              (with_queue p (clear_links x (q_remove y (queue_of p s1))) s1) (S n)) as
    (t2 & s2 & Hw2 & Ht2 & Hh2 & _).
  { apply NoDup_app_r in Hnd. apply NoDup_cons in Hnd as [_ Hnd].
    apply NoDup_app in Hnd as (Hd2 & Hd23 & Hd3). apply NoDup_cons in Hd3 as [_ Hd3].
    apply NoDup_app. split; [done|]. split; [|done].
    intros z Hz2 Hz3. apply (Hd23 z Hz2). by right. }
  { rewrite queue_of_with_queue. apply (seg_next_frame (next (q_remove y (queue_of p s1))));
      [|exact Hn'].
    intros z Hz. simpl. rewrite lookup_delete_ne; [done|]. intros ->.
    apply NoDup_app_r in Hnd. apply NoDup_cons_fresh in Hnd. apply Hnd.
    rewrite elem_of_app in Hz |- *. destruct Hz as [Hz|Hz]; [by left|right; by right]. }
  { intros z Hz. apply Hcb. apply elem_of_app. by right. }
  rewrite Hw2. rewrite queue_of_with_queue in Hh2. simpl in Hh2.
  rewrite q_remove_unfold in Hh2. simpl in Hh2. rewrite Hh1 in Hh2. simpl in Hh2.
  replace (length l1 + S (length (l2 ++ l3) + S n))%nat
    with (S (length l1 + (length (l2 ++ l3) + S n))) by lia.
  rewrite process_done by done.
  eexists _, _. split; [done|]. split; [|done].
  rewrite calls_app, Ht1. simpl. rewrite decide_True by done.
  rewrite !app_nil_r, Ht2. by rewrite (map_app _ l1).
Qed.

Lemma seg_next_set_end nxt l t e v :
  NoDup (l ++ [t]) ->
  seg_next nxt (l ++ [t]) e ->
  seg_next (<[t:=v]> nxt) (l ++ [t]) (Some v).
Proof.
  intros Hnd Hseg. apply seg_next_app in Hseg as [Hseg _].
  apply seg_next_app. simpl. split; [|by rewrite lookup_insert_eq].
  eapply seg_next_frame; [|exact Hseg]. intros y Hy.
  rewrite lookup_insert_ne; [done|]. intros ->.
  apply (NoDup_app_disjoint _ _ y Hnd Hy). by left.
Qed.

(** X6. [add] does not guard against a controller that is already queued:
    after a second [add] of a queued controller, [process] calls it twice,
    once at its place in the queue and once more after all the others. *)
Theorem double_add_called_twice hooks p flags l x s fuel :
  linked (queue_of p s) l -> x ∈ l ->
  (forall y, y ∈ l -> leaves_queue hooks p flags y) ->
  (length l + 2 < fuel)%nat ->
  exists s1 t s2,
    add p x s = ([], Done s1) /\
    process hooks fuel p flags s1 = (t, Done s2) /\
    calls p t = map (fun y => (y, flags)) (l ++ [x]) /\
    head (queue_of p s2) = None.
Proof.
  intros [[Hnd [Hseg _]] [Hh Ht]] Hx Hcb Hfuel.
  destruct l as [|tl l' _] using rev_ind; [by apply elem_of_nil in Hx|].
  rewrite last_snoc in Ht.
  assert (Hhd : exists c r, l' ++ [tl] = c :: r).
  { destruct l' as [|c r]; [by exists tl, []|by exists c, (r ++ [tl])]. }
  destruct Hhd as (c & r & Hcr).
  set (q1 := set_tail (Some x)
               (set_next (<[tl:=x]> (next (queue_of p s)))
                  (set_prev (<[x:=tl]> (prev (queue_of p s))) (queue_of p s)))).
  assert (Hadd : add p x s = ([], Done (with_queue p q1 s))).
  { unfold add, q_add. rewrite Hh, Hcr. simpl. by rewrite Ht. }
  set (n := (fuel - length (l' ++ [tl]) - 3)%nat).
  replace fuel with (S (length (l' ++ [tl]) + S (S n)))%nat by lia.
  set (s0 := with_queue p (set_tail None (set_head None q1)) (with_queue p q1 s)).
  assert (Hseg0 : seg_next (next (queue_of p s0)) (c :: r) (Some x)).
  { rewrite <- Hcr. unfold s0. rewrite queue_of_with_queue.
    by apply (seg_next_set_end (next (queue_of p s)) l' tl None x). }
  rewrite Hcr in Hnd, Hcb, Hx |- *.
  destruct (walk_segment hooks p flags r c (Some x) s0 (S (S n)) Hnd Hseg0 Hcb) as
    (t1 & s1 & Ht1 & Hw & Hh1 & _ & _ & Hu1 & _).
  destruct (walk_leaf hooks p flags x None s1 (S n)) as (t2 & s2 & Ht2 & Hw2 & Hq2).
  { by apply Hu1. }
  { by apply Hcb. }
  exists (with_queue p q1 s), (t1 ++ t2 ++ []), s2. split; [done|].
  split; [|split].
  - cbn [process]. rewrite queue_of_with_queue.
    change (head q1) with (head (queue_of p s)). rewrite Hh, Hcr.
    simpl hd_error. cbv iota. fold s0.
    unfold andThen. rewrite Hw, Hw2. simpl.
    replace (head (queue_of p s2)) with (@None nat).
    + simpl. by rewrite !app_nil_r.
    + rewrite Hq2. simpl. rewrite Hh1. unfold s0. by rewrite queue_of_with_queue.
  - rewrite app_nil_r, calls_app, Ht1, Ht2, map_app. done.
  - rewrite Hq2. simpl. rewrite Hh1. unfold s0. by rewrite queue_of_with_queue.
Qed.

(** X7. [add] onto an empty queue sets [head] and [tail] only; it does not
    reset the link fields of the added controller.  If that controller
    still carries a [next] chain (as the controllers behind a callback that
    threw do), [process] walks the whole chain and calls controllers that
    were not added again. *)
Theorem add_keeps_stale_chain hooks p flags y rest s fuel :
  head (queue_of p s) = None ->
  NoDup (y :: rest) ->
  seg_next (next (queue_of p s)) (y :: rest) None ->
  (forall z, z ∈ y :: rest -> leaves_queue hooks p flags z) ->
  (length (y :: rest) < fuel)%nat ->
  exists s1 t s2,
    add p y s = ([], Done s1) /\
    process hooks fuel p flags s1 = (t, Done s2) /\
    calls p t = map (fun z => (z, flags)) (y :: rest) /\
    head (queue_of p s2) = None.
Proof.
  intros Hh Hnd Hseg Hcb Hfuel.
  set (q1 := set_tail (Some y) (set_head (Some y) (queue_of p s))).
  destruct (process_quiet hooks p flags (y :: rest) (with_queue p q1 s) fuel) as
    (t & s2 & Hp & Hc & Hh2 & _); rewrite ?queue_of_with_queue; try done.
  { intros z Hz. by apply leaves_queue_enqueues, Hcb. }
  exists (with_queue p q1 s), t, s2. split; [|done].
  unfold add, q_add. by rewrite Hh.
Qed.

(** X8. [add] keeps a well-formed queue well formed and appends: after a
    run of [add] calls with distinct controllers that are not queued, the
    queue holds the old controllers followed by the new ones in the order of
    the calls; [depth], the other phase queues and the batch queue are
    untouched. *)
Theorem add_each_keeps_queue p l0 cs s :
  linked (queue_of p s) l0 ->
  NoDup (l0 ++ cs) ->
  (forall c, c ∈ cs -> unlinked (queue_of p s) c) ->
  exists s',
    add_each p cs s = ([], Done s') /\
    linked (queue_of p s') (l0 ++ cs) /\
    depth (queue_of p s') = depth (queue_of p s) /\
    (forall p', p' <> p -> queue_of p' s' = queue_of p' s) /\
    batch_of s' = batch_of s.
Proof.
  intros Hl Hnd Hu.
  destruct (q_add_each_linked cs _ l0 Hl Hnd Hu) as (q' & E & Hl' & Hd & _).
  exists (with_queue p q' s). rewrite queue_of_with_queue.
  split; [by apply add_each_q|]. split; [done|]. split; [done|]. split.
  - intros p' Hp'. by apply queue_of_with_queue_ne.
  - apply batch_with_queue.
Qed.

Lemma add_each_keeps_queue_witness :
  exists s',
    add_each Bound [4; 5]%nat abc_queued = ([], Done s') /\
    linked (queue_of Bound s') ([1; 2; 3]%nat ++ [4; 5]%nat) /\
    depth (queue_of Bound s') = depth (queue_of Bound abc_queued) /\
    (forall p', p' <> Bound -> queue_of p' s' = queue_of p' abc_queued) /\
    batch_of s' = batch_of abc_queued.
Proof.
  apply (add_each_keeps_queue Bound [1; 2; 3]%nat [4; 5]%nat abc_queued).
  - exact abc_queued_linked.
  - apply (bool_decide_unpack (NoDup [1; 2; 3; 4; 5]%nat)). vm_compute. exact I.
  - intros c Hc. apply elem_of_cons in Hc as [->|Hc];
      [|apply list_elem_of_singleton in Hc as ->]; split; reflexivity.
Defined.

(** ** What a drain leaves alone *)

Section Frame.

Variable hooks : Hooks.
Variable p : phase.
Variable flags : Z.
Variable P : World -> Prop.

Hypothesis P_frame : forall s q,
  depth q = depth (queue_of p s) -> P s -> P (with_queue p q s).
Hypothesis P_callback : forall c s t o,
  P s -> callback hooks p c flags s = (t, o) -> outcome_holds P o.

Lemma walk_preserves fuel : forall cur s t o,
  P s -> walk hooks fuel p flags cur s = (t, o) -> outcome_holds P o.
Proof.
  induction fuel as [|n IH]; intros cur s t o HP H.
  - by injection H as _ <-.
  - simpl in H. unfold andThen, invoke in H.
    destruct (callback hooks p cur flags s) as [tc oc] eqn:Ec.
    pose proof (P_callback cur s tc oc HP Ec) as HPc.
    destruct oc as [s1|e s1|]; [|by injection H as _ <-|by injection H as _ <-].
    simpl in HPc. unfold unlink in H.
    set (s2 := with_queue p _ s1) in H.
    assert (HP2 : P s2) by (by apply P_frame).
    destruct (next (queue_of p s1) !! cur) as [nxt|].
    + destruct (walk hooks n p flags nxt s2) as [t2 o2] eqn:Ew.
      injection H as _ <-. by eapply IH.
    + by injection H as _ <-.
Qed.

Lemma process_preserves fuel : forall s t o,
  P s -> process hooks fuel p flags s = (t, o) -> outcome_holds P o.
Proof.
  induction fuel as [|n IH]; intros s t o HP H.
  - by injection H as _ <-.
  - simpl in H. destruct (head (queue_of p s)) as [cur|]; [|by injection H as _ <-].
    unfold andThen in H.
    set (s0 := with_queue p _ s) in H.
    assert (HP0 : P s0) by (by apply P_frame).
    destruct (walk hooks n p flags cur s0) as [t1 o1] eqn:Ew.
    pose proof (walk_preserves n cur s0 t1 o1 HP0 Ew) as HP1.
    destruct o1 as [s1|e s1|]; [|by injection H as _ <-|by injection H as _ <-].
    destruct (process hooks n p flags s1) as [t2 o2] eqn:Ep.
    injection H as _ <-. by eapply IH.
Qed.

End Frame.

(** X9. [process] itself changes nothing but the [head], [tail] and link
    fields of its own queue: any property of the state that these do not
    affect and that every callback of the phase keeps, whether it returns or
    throws, holds again in the state in which [process] returns or throws.
    So [process] never changes a [depth] and never touches another queue. *)
Theorem process_keeps_invariant hooks p flags (P : World -> Prop) fuel s t o :
  (forall s0 q, depth q = depth (queue_of p s0) -> P s0 -> P (with_queue p q s0)) ->
  (forall c s0 t0 o0,
     P s0 -> callback hooks p c flags s0 = (t0, o0) -> outcome_holds P o0) ->
  P s ->
  process hooks fuel p flags s = (t, o) ->
  outcome_holds P o.
Proof.
  intros Hf Hc HP H. by eapply process_preserves.
Qed.

Lemma self_remove_truncates_drain_witness :
  exists t s',
    process self_removing_hooks 3 Bound 0 abc_queued = (t, Done s') /\
    calls Bound t = [(1%nat, 0); (2%nat, 0)] /\
    head (queue_of Bound s') = None /\ tail (queue_of Bound s') = None.
Proof.
  apply (self_remove_truncates_drain self_removing_hooks Bound 0
           [1%nat] 2%nat [3%nat] abc_queued 3).
  - exact abc_queued_linked.
  - intros y Hy s. apply list_elem_of_singleton in Hy as ->. by exists [], s.
  - reflexivity.
  - simpl. lia.
Defined.

Lemma remove_pending_during_drain_witness :
  exists t s',
    process cancelling_hooks 4 Bound 0 abc_queued = (t, Done s') /\
    calls Bound t = [(1%nat, 0); (2%nat, 0)] /\
    head (queue_of Bound s') = None.
Proof.
  apply (remove_pending_during_drain cancelling_hooks Bound 0
           [] 1%nat [2%nat] 3%nat [] abc_queued 4).
  - exact abc_queued_linked.
  - intros z Hz s. apply list_elem_of_singleton in Hz as ->. by exists [], s.
  - reflexivity.
  - simpl. lia.
Defined.

Lemma double_add_called_twice_witness :
  exists s1 t s2,
    add Bound 2%nat abc_queued = ([], Done s1) /\
    process idle_hooks 6 Bound 0 s1 = (t, Done s2) /\
    calls Bound t = [(1%nat, 0); (2%nat, 0); (3%nat, 0); (2%nat, 0)] /\
    head (queue_of Bound s2) = None.
Proof.
  apply (double_add_called_twice idle_hooks Bound 0 [1; 2; 3]%nat 2%nat abc_queued 6).
  - exact abc_queued_linked.
  - right. by left.
  - intros y _. apply idle_hooks_leave.
  - simpl. lia.
Defined.

Lemma add_keeps_stale_chain_witness :
  exists s1 t s2,
    add Bound 2%nat bc_dangling = ([], Done s1) /\
    process idle_hooks 3 Bound 0 s1 = (t, Done s2) /\
    calls Bound t = [(2%nat, 0); (3%nat, 0)] /\
    head (queue_of Bound s2) = None.
Proof.
  apply (add_keeps_stale_chain idle_hooks Bound 0 2%nat [3%nat] bc_dangling 3).
  - reflexivity.
  - apply (bool_decide_unpack (NoDup [2; 3]%nat)). vm_compute. exact I.
  - split; [reflexivity|]. split; [reflexivity|exact I].
  - intros z _. apply idle_hooks_leave.
  - simpl. lia.
Defined.

Lemma process_keeps_invariant_witness :
  outcome_holds (fun s => queue_of Mount s = queue_of Mount attach_pending /\
                          depth (queue_of Attached s) = 1)
    (snd (process idle_hooks 3 Attached 5 attach_pending)).
Proof.
  apply (process_keeps_invariant idle_hooks Attached 5
           (fun s => queue_of Mount s = queue_of Mount attach_pending /\
                     depth (queue_of Attached s) = 1)
           3 attach_pending (fst (process idle_hooks 3 Attached 5 attach_pending))).
  - intros s0 q Hq [H1 H2]. rewrite queue_of_with_queue. split; [done|congruence].
  - intros c s0 t0 o0 H [= <- <-]. exact H.
  - split; reflexivity.
  - apply surjective_pairing.
Defined.

(** ** Auto queues *)

(** X10. [inline] around a run of [add] calls, at depth 0 on an empty queue
    (and with nothing waiting to be mounted or unmounted): the controllers
    added inside are all called before [inline] returns, in the order of the
    [add] calls, with the flags given to [inline], or [LifecycleFlags.none]
    when they are omitted; [depth] is 0 again and the queue is empty. *)
Theorem inline_adds_then_drains none fromBatch hooks fuel a p flags cs s :
  own_phase a = Some p ->
  (forall r, render_phase a = Some r -> head (queue_of r s) = None) ->
  depth_of a s = 0 ->
  head (queue_of p s) = None -> tail (queue_of p s) = None ->
  NoDup cs ->
  (forall c, c ∈ cs -> unlinked (queue_of p s) c) ->
  (forall c, c ∈ cs -> leaves_queue hooks p (flags_or_none none flags) c) ->
  (length cs < fuel)%nat ->
  exists t s',
    inline none fromBatch hooks fuel a (add_each p cs) flags s = (t, Done s') /\
    calls p t = map (fun c => (c, flags_or_none none flags)) cs /\
    depth_of a s' = 0 /\
    head (queue_of p s') = None.
Proof.
  intros Hp Hr Hd Hh Ht Hnd Hu Hcb Hfuel.
  destruct fuel as [|n]; [lia|].
  unfold inline. rewrite (andThen_silent _ _ s _ eq_refl).
  set (sb := with_depth a (depth_of a s + 1) s).
  assert (Hqb : queue_of p sb = set_depth (depth_of a s + 1) (queue_of p s)).
  { unfold sb. by rewrite (own_phase_with_depth a p), queue_of_with_queue. }
  destruct (q_add_each_linked cs (queue_of p sb) []) as (q1 & E & Hl & Hd1 & _).
  { rewrite Hqb. by apply linked_nil. }
  { done. }
  { intros c Hc. rewrite Hqb. by apply Hu. }
  rewrite (andThen_silent _ _ sb _ (add_each_q p cs sb q1 E)).
  set (sc := with_queue p q1 sb).
  assert (Hdc : depth_of a sc = 1).
  { rewrite (own_phase_depth a p) by done. unfold sc.
    rewrite queue_of_with_queue, Hd1, Hqb. simpl. lia. }
  rewrite end_outer by done.
  rewrite (settle_own fromBatch hooks n a p); [|done|].
  2: { intros r Hrr. pose proof (own_render_ne a p r Hp Hrr) as Hne.
       rewrite (own_phase_with_depth a p) by done. unfold sc, sb.
       rewrite (own_phase_with_depth a p) by done.
       rewrite !queue_of_with_queue_ne by done. by apply Hr. }
  simpl in Hl. destruct Hl as [[_ [Hseg _]] [Hh1 _]].
  assert (Hq0 : queue_of p (with_depth a 0 sc) = set_depth 0 q1).
  { rewrite (own_phase_with_depth a p) by done. rewrite queue_of_with_queue.
    unfold sc. by rewrite queue_of_with_queue. }
  destruct (process_quiet hooks p (flags_or_none none flags) cs (with_depth a 0 sc) (S n)) as
    (t & s2 & Hpr & Hc & Hh2 & _ & Hd2 & _).
  { done. }
  { by rewrite Hq0. }
  { by rewrite Hq0. }
  { done. }
  { intros y Hy. by apply leaves_queue_enqueues, Hcb. }
  exists t, s2. split; [done|]. split; [done|]. split; [|done].
  rewrite (own_phase_depth a p) by done. rewrite Hd2.
  by rewrite <- (own_phase_depth a p), depth_of_with_depth.
Qed.

Lemma inline_adds_then_drains_witness :
  exists t s',
    inline 0 2 idle_hooks 4 AttachedQueue (add_each Attached [1; 2; 3]%nat) None new_World
      = (t, Done s') /\
    calls Attached t = [(1%nat, 0); (2%nat, 0); (3%nat, 0)] /\
    depth_of AttachedQueue s' = 0 /\
    head (queue_of Attached s') = None.
Proof.
  apply (inline_adds_then_drains 0 2 idle_hooks 4 AttachedQueue Attached None
           [1; 2; 3]%nat new_World).
  - reflexivity.
  - intros r [= <-]. reflexivity.
  - reflexivity.
  - reflexivity.
  - reflexivity.
  - apply (bool_decide_unpack (NoDup [1; 2; 3]%nat)). vm_compute. exact I.
  - intros c _. apply unlinked_new.
  - intros c _. apply idle_hooks_leave.
  - simpl. lia.
Defined.

(** X11. Nested [inline] calls on one auto queue coalesce: called at depth
    0, [inline] of a closure that itself calls [inline] around [fn] drains
    once, when the outer [inline] ends: the controllers [l] that [fn] leaves
    queued are called once each, in order, after everything [fn] did, and
    with the flags of the outer call; the flags given to the inner call are
    never used. *)
Theorem nested_inline_single_drain none fromBatch hooks fuel a p fn flags1 flags2
    l s t s1 :
  own_phase a = Some p ->
  depth_of a s = 0 ->
  fn (with_depth a 2 s) = (t, Done s1) ->
  depth_of a s1 = 2 ->
  (forall r, render_phase a = Some r -> head (queue_of r s1) = None) ->
  linked (queue_of p s1) l ->
  (forall c, c ∈ l -> leaves_queue hooks p (flags_or_none none flags2) c) ->
  (length l < fuel)%nat ->
  exists t2 s',
    inline none fromBatch hooks fuel a
      (inline none fromBatch hooks fuel a fn flags1) flags2 s = (t ++ t2, Done s') /\
    calls p t2 = map (fun c => (c, flags_or_none none flags2)) l /\
    depth_of a s' = 0 /\ head (queue_of p s') = None.
Proof.
  intros Hp Hd Hfn Hd1 Hr Hl Hcb Hfuel.
  destruct (end_drains_own none fromBatch hooks fuel a p flags2 l (with_depth a 1 s1))
    as (t2 & s' & He & Ht2 & Hd' & Hh'); try done.
  { apply depth_of_with_depth. }
  { intros r Hrr. pose proof (own_render_ne a p r Hp Hrr) as Hne.
    rewrite (own_phase_with_depth a p) by done.
    rewrite queue_of_with_queue_ne by done. by apply Hr. }
  { rewrite (own_phase_with_depth a p) by done. rewrite queue_of_with_queue.
    by apply linked_set_depth. }
  exists t2, s'. split; [|done].
  unfold inline. rewrite (andThen_silent _ _ s _ eq_refl).
  rewrite (andThen_prefix _ (end_ none fromBatch hooks fuel a flags1) _ t _ s1).
  - rewrite (andThen_silent _ _ s1 _ (end_inner none fromBatch hooks fuel a flags1 s1 ltac:(lia))).
    rewrite Hd1. change (2 - 1) with 1. by rewrite He.
  - rewrite (andThen_silent _ _ _ _ eq_refl).
    rewrite depth_of_with_depth, with_depth_twice, Hd. unfold andThen.
    change (0 + 1 + 1) with 2. rewrite Hfn.
    by destruct (end_ none fromBatch hooks fuel a flags1 s1).
Qed.

Lemma nested_inline_single_drain_witness :
  exists t2 s',
    inline 0 2 idle_hooks 4 BoundQueue
      (inline 0 2 idle_hooks 4 BoundQueue (add_each Bound [1; 2; 3]%nat) (Some 9)) (Some 5)
      new_World = ([] ++ t2, Done s') /\
    calls Bound t2 = [(1%nat, 5); (2%nat, 5); (3%nat, 5)] /\
    depth_of BoundQueue s' = 0 /\ head (queue_of Bound s') = None.
Proof.
  apply (nested_inline_single_drain 0 2 idle_hooks 4 BoundQueue Bound
           (add_each Bound [1; 2; 3]%nat) (Some 9) (Some 5) [1; 2; 3]%nat
           new_World [] (with_depth BoundQueue 2 abc_queued)).
  - reflexivity.
  - reflexivity.
  - reflexivity.
  - reflexivity.
  - intros r Hr. discriminate Hr.
  - repeat split; try reflexivity.
    apply (bool_decide_unpack (NoDup [1; 2; 3]%nat)). vm_compute. exact I.
  - intros c _. apply idle_hooks_leave.
  - simpl. lia.
Defined.

(** X12. [end] without a matching [begin]: at depth 0 it drains nothing and
    leaves [depth] at -1, and a [begin]/[end] pair that follows, which would
    drain at depth 0, then calls nothing either, whatever is queued. *)
Theorem unmatched_end_disables_drain none fromBatch hooks fuel a flags s :
  depth_of a s = 0 ->
  end_ none fromBatch hooks fuel a flags s = ([], Done (with_depth a (-1) s)) /\
  (end_ none fromBatch hooks fuel a flags ;;; begin a ;;;
   end_ none fromBatch hooks fuel a flags) s = ([], Done (with_depth a (-1) s)).
Proof.
  intros Hd.
  assert (He : end_ none fromBatch hooks fuel a flags s = ([], Done (with_depth a (-1) s))).
  { rewrite end_inner by lia. by rewrite Hd. }
  split; [done|].
  rewrite (andThen_silent _ _ s _ He), (andThen_silent _ _ _ _ eq_refl).
  rewrite end_inner by (rewrite !depth_of_with_depth; lia).
  rewrite !depth_of_with_depth, !with_depth_twice. done.
Qed.

Lemma unmatched_end_disables_drain_witness :
  end_ 0 2 idle_hooks 4 BoundQueue None abc_queued =
    ([], Done (with_depth BoundQueue (-1) abc_queued)) /\
  (end_ 0 2 idle_hooks 4 BoundQueue None ;;; begin BoundQueue ;;;
   end_ 0 2 idle_hooks 4 BoundQueue None) abc_queued =
    ([], Done (with_depth BoundQueue (-1) abc_queued)).
Proof.
  apply (unmatched_end_disables_drain 0 2 idle_hooks 4 BoundQueue None abc_queued).
  reflexivity.
Defined.

(** X13. When the Mount (Unmount) drain that [end] of the Attach (Detach)
    queue runs first throws, [end] throws the same error without starting
    its own [process]: if the mount callbacks do not touch the Attach queue,
    that queue still holds what it held, with [depth] already back at 0. *)
Theorem render_throw_keeps_own_queue none fromBatch hooks fuel a render own flags
    s tm e sm :
  drains_first a render own ->
  depth_of a s = 1 ->
  (forall c s0 t0 o0,
     callback hooks render c (flags_or_none none flags) s0 = (t0, o0) ->
     outcome_holds (fun s' => queue_of own s' = queue_of own s0) o0) ->
  process hooks fuel render (flags_or_none none flags) (with_depth a 0 s)
    = (tm, Raised e sm) ->
  end_ none fromBatch hooks fuel a flags s = (tm, Raised e sm) /\
  queue_of own sm = set_depth 0 (queue_of own s).
Proof.
  intros Hpair Hd Hcb Hp. split.
  - rewrite end_outer by done. destruct Hpair; unfold settle, andThen; by rewrite Hp.
  - apply (process_preserves hooks render (flags_or_none none flags)
             (fun s' => queue_of own s' = set_depth 0 (queue_of own s)))
      in Hp; [done| | |].
    + intros s0 q _ H. rewrite queue_of_with_queue_ne; [done|]. by destruct Hpair.
    + intros c s0 t0 o0 H Hc. specialize (Hcb c s0 t0 o0 Hc).
      destruct o0; simpl in *; congruence.
    + destruct Hpair; unfold with_depth; by rewrite queue_of_with_queue.
Qed.

Lemma render_throw_keeps_own_queue_witness :
  exists tm sm,
    end_ 0 2 failing_hooks 4 AttachedQueue None attach_pending
      = (tm, Raised (Thrown 7) sm) /\
    queue_of Attached sm = set_depth 0 (queue_of Attached attach_pending).
Proof.
  eexists _, _.
  eapply (render_throw_keeps_own_queue 0 2 failing_hooks 4 AttachedQueue Mount Attached
            None attach_pending).
  - exact attach_mount.
  - reflexivity.
  - intros c s0 t0 o0 H. destruct c as [|[|[|c]]]; injection H as _ <-; reflexivity.
  - vm_compute. reflexivity.
Defined.

(** ** The batch queue *)

Lemma remove_first_absent x l : x ∉ l -> remove_first x l = l.
Proof.
  induction l as [|y l IH]; intros H; [done|]. simpl.
  destruct (decide (y = x)) as [->|Hne].
  - exfalso. apply H. by left.
  - f_equal. apply IH. intros Hin. apply H. by right.
Qed.

Lemma remove_first_app x l1 l2 :
  x ∉ l1 -> remove_first x (l1 ++ x :: l2) = l1 ++ l2.
Proof.
  induction l1 as [|y l1 IH]; intros H; simpl.
  - by destruct (decide (x = x)).
  - destruct (decide (y = x)) as [->|Hne].
    + exfalso. apply H. by left.
    + f_equal. apply IH. intros Hin. apply H. by right.
Qed.

(** X14. [BatchQueue.remove] takes out the first occurrence of the
    batchable and nothing else: later duplicates stay queued, [depth] and
    everything outside the batch queue are untouched. *)
Theorem batch_remove_first_occurrence x l1 l2 s :
  queue (batch_of s) = l1 ++ x :: l2 -> x ∉ l1 ->
  BatchQueue_remove x s = ([], Done (with_batch (set_queue (l1 ++ l2) (batch_of s)) s)).
Proof.
  intros E H. unfold BatchQueue_remove. by rewrite E, remove_first_app.
Qed.

Lemma batch_remove_first_occurrence_witness :
  BatchQueue_remove 2%nat (with_batch (mkBatchQueue [1; 2; 3; 2]%nat 0) new_World) =
  ([], Done (with_batch (mkBatchQueue [1; 3; 2]%nat 0) new_World)).
Proof.
  apply (batch_remove_first_occurrence 2%nat [1%nat] [3; 2]%nat
           (with_batch (mkBatchQueue [1; 2; 3; 2]%nat 0) new_World)).
  - reflexivity.
  - intros H. apply list_elem_of_singleton in H. discriminate H.
Defined.

(** X15. [BatchQueue.remove] of a batchable that is not queued changes
    nothing, and [add] followed by [remove] of such a batchable is a round
    trip. *)
Theorem batch_add_remove_round_trip x s :
  x ∉ queue (batch_of s) ->
  BatchQueue_remove x s = ([], Done s) /\
  (BatchQueue_add x ;;; BatchQueue_remove x) s = ([], Done s).
Proof.
  intros H. split.
  - unfold BatchQueue_remove. rewrite remove_first_absent by done.
    by rewrite with_batch_same.
  - rewrite (andThen_silent _ _ s _ eq_refl). unfold BatchQueue_remove.
    rewrite batch_of_with_batch, with_batch_twice.
    replace (queue (set_queue (queue (batch_of s) ++ [x]) (batch_of s)))
      with (queue (batch_of s) ++ [x]) by done.
    rewrite remove_first_app by done.
    rewrite app_nil_r.
    replace (set_queue (queue (batch_of s))
               (set_queue (queue (batch_of s) ++ [x]) (batch_of s)))
      with (set_queue (queue (batch_of s)) (batch_of s)) by done.
    by rewrite with_batch_same.
Qed.

Lemma batch_add_remove_round_trip_witness :
  BatchQueue_remove 5%nat x_batched = ([], Done x_batched) /\
  (BatchQueue_add 5%nat ;;; BatchQueue_remove 5%nat) x_batched = ([], Done x_batched).
Proof.
  apply (batch_add_remove_round_trip 5%nat x_batched).
  intros H. apply list_elem_of_singleton in H. discriminate H.
Defined.

(** X16. [add] of a batchable that is already queued, followed by [remove]:
    the earlier occurrence is the one removed, so the batchable is still
    queued and has moved to the back of the queue. *)
Theorem batch_readd_remove_moves_back x l1 l2 s :
  queue (batch_of s) = l1 ++ x :: l2 -> x ∉ l1 ->
  (BatchQueue_add x ;;; BatchQueue_remove x) s =
    ([], Done (with_batch (set_queue (l1 ++ l2 ++ [x]) (batch_of s)) s)).
Proof.
  intros E H. rewrite (andThen_silent _ _ s _ eq_refl). unfold BatchQueue_remove.
  rewrite batch_of_with_batch, with_batch_twice.
  replace (queue (set_queue (queue (batch_of s) ++ [x]) (batch_of s)))
    with (queue (batch_of s) ++ [x]) by done.
  rewrite E, <- (assoc_L (++)).
  change ((x :: l2) ++ [x]) with (x :: (l2 ++ [x])).
  by rewrite remove_first_app.
Qed.

Lemma batch_readd_remove_moves_back_witness :
  (BatchQueue_add 1%nat ;;; BatchQueue_remove 1%nat)
    (with_batch (mkBatchQueue [1; 2; 3]%nat 0) new_World) =
  ([], Done (with_batch (mkBatchQueue [2; 3; 1]%nat 0) new_World)).
Proof.
  apply (batch_readd_remove_moves_back 1%nat [] [2; 3]%nat
           (with_batch (mkBatchQueue [1; 2; 3]%nat 0) new_World)).
  - reflexivity.
  - intros H. inversion H.
Defined.

Section Acts.

Variable hooks : Hooks.
Variable f : Z.

Lemma flush_enqueues_acts b ds :
  flush_enqueues hooks f b ds -> flush_acts hooks f b (fun l => l ++ ds).
Proof. done. Qed.

Lemma flush_each_acts (g : nat -> list nat -> list nat) items : forall s,
  (forall b, b ∈ items -> flush_acts hooks f b (g b)) ->
  exists t s',
    flush_each hooks f items s = (t, Done s') /\
    flushes t = map (fun b => (b, f)) items /\
    batch_of s' =
      set_queue (foldl (fun l b => g b l) (queue (batch_of s)) items) (batch_of s).
Proof.
  induction items as [|b items IH]; intros s Hcb.
  - exists [], s. simpl. by destruct (batch_of s).
  - destruct (Hcb b (list_elem_of_here b items) s) as (t1 & s1 & H1 & Ht1 & Hb1).
    destruct (IH s1) as (t2 & s2 & H2 & Ht2 & Hb2).
    { intros b' Hb'. apply Hcb. by right. }
    exists (Flushed b f :: t1 ++ t2), s2. split; [|split].
    + simpl. unfold andThen, invoke_flush. by rewrite H1, H2.
    + simpl. by rewrite flushes_app, Ht1, Ht2.
    + rewrite Hb2, Hb1. done.
Qed.

(** One round of the batch drain, for callbacks that rewrite the queue. *)
Lemma flush_rounds_acts (g : nat -> list nat -> list nat) n s :
  queue (batch_of s) <> [] ->
  (forall b, b ∈ queue (batch_of s) -> flush_acts hooks f b (g b)) ->
  exists t1 s1,
    flush_rounds hooks (S n) f s =
      (let (t2, o) := flush_rounds hooks n f s1 in (t1 ++ t2, o)) /\
    flushes t1 = map (fun b => (b, f)) (queue (batch_of s)) /\
    batch_of s1 =
      set_queue (foldl (fun l b => g b l) [] (queue (batch_of s))) (batch_of s).
Proof.
  intros Hne Hcb.
  destruct (flush_each_acts g (queue (batch_of s))
              (with_batch (set_queue [] (batch_of s)) s) Hcb) as (t1 & s1 & H1 & Ht1 & Hb1).
  exists t1, s1. split; [|split; [done|]].
  - cbn [flush_rounds]. destruct (queue (batch_of s)) as [|b items] eqn:E; [done|].
    unfold andThen. by rewrite H1.
  - rewrite Hb1. by destruct s.
Qed.

End Acts.

Lemma remove_acts hooks f b y :
  (forall s, flushBatch hooks b f s = BatchQueue_remove y s) ->
  flush_acts hooks f b (remove_first y).
Proof. intros H s. rewrite H. by eexists _, _. Qed.

Lemma add_acts hooks f b z :
  (forall s, flushBatch hooks b f s = BatchQueue_add z s) ->
  flush_acts hooks f b (fun l => l ++ [z]).
Proof. intros H s. rewrite H. by eexists _, _. Qed.

(** X17. [BatchQueue.remove] called from a [flushBatch] cannot cancel a
    flush of the round in progress: [process] flushes a private copy of the
    queue, so when the callback of [b] removes [y], every batchable that
    was queued when the round began, [y] included, is still flushed, in
    order. *)
Theorem batch_remove_during_flush fromBatch hooks flags b y l1 l2 s fuel :
  queue (batch_of s) = l1 ++ b :: l2 ->
  (forall s0, flushBatch hooks b (js_bitor flags fromBatch) s0 = BatchQueue_remove y s0) ->
  (forall b', b' ∈ l1 ++ l2 -> b' <> b ->
     flush_enqueues hooks (js_bitor flags fromBatch) b' []) ->
  (1 < fuel)%nat ->
  exists t s',
    BatchQueue_process fromBatch hooks fuel flags s = (t, Done s') /\
    flushes t = map (fun x => (x, js_bitor flags fromBatch)) (l1 ++ b :: l2) /\
    queue (batch_of s') = [].
Proof.
  intros Hq Hb Hrest Hfuel. unfold BatchQueue_process.
  set (f := js_bitor flags fromBatch) in *.
  destruct fuel as [|[|n]]; try lia.
  set (g := fun b' : nat => if decide (b' = b) then remove_first y
                            else fun l : list nat => l ++ []).
  destruct (flush_rounds_acts hooks f g (S n) s) as (t1 & s1 & H1 & Ht1 & Hb1).
  { rewrite Hq. by destruct l1. }
  { intros b' Hin. unfold g. destruct (decide (b' = b)) as [->|Hne].
    - by apply remove_acts.
    - apply flush_enqueues_acts, Hrest; [|done].
      rewrite Hq in Hin. apply elem_of_app in Hin as [Hin|Hin].
      + apply elem_of_app. by left.
      + apply elem_of_cons in Hin as [->|Hin]; [done|]. apply elem_of_app. by right. }
  assert (Hnil : forall l, foldl (fun l0 b0 => g b0 l0) [] l = []).
  { induction l as [|x l IH]; [done|]. simpl. unfold g at 2.
    destruct (decide (x = b)); simpl; apply IH. }
  rewrite Hnil in Hb1.
  rewrite (flush_rounds_done hooks f n s1) in H1 by (by rewrite Hb1).
  rewrite app_nil_r in H1. exists t1, s1.
  split; [done|]. split; [by rewrite Ht1, Hq|by rewrite Hb1].
Qed.

Lemma batch_remove_during_flush_witness :
  exists t s',
    BatchQueue_process 2 removing_batch_hooks 3 1
      (with_batch (mkBatchQueue [1; 2; 3]%nat 0) new_World) = (t, Done s') /\
    flushes t = map (fun x => (x, js_bitor 1 2)) ([] ++ 1%nat :: [2; 3]%nat) /\
    queue (batch_of s') = [].
Proof.
  apply (batch_remove_during_flush 2 removing_batch_hooks 1 1%nat 2%nat [] [2; 3]%nat
           (with_batch (mkBatchQueue [1; 2; 3]%nat 0) new_World) 3).
  - reflexivity.
  - reflexivity.
  - intros b' Hin Hne s0. exists [], s0.
    apply elem_of_cons in Hin as [->|Hin];
      [|apply list_elem_of_singleton in Hin as ->].
    + split; [reflexivity|]. split; [reflexivity|].
      rewrite app_nil_r. by destruct (batch_of s0).
    + split; [reflexivity|]. split; [reflexivity|].
      rewrite app_nil_r. by destruct (batch_of s0).
  - lia.
Defined.

(** X18. What one [flushBatch] of a round enqueues, a later [flushBatch] of
    the same round can still take back: when the callback of [a] adds [z]
    and the callback of [b], queued behind [a], removes [z], then [z] is
    not flushed in a further round and [process] returns after the round. *)
Theorem batch_add_cancelled_in_round fromBatch hooks flags a b z l1 l2 l3 s fuel :
  queue (batch_of s) = l1 ++ a :: l2 ++ b :: l3 ->
  a ∉ l1 ++ l2 ++ l3 -> a <> b ->
  (forall s0, flushBatch hooks a (js_bitor flags fromBatch) s0 = BatchQueue_add z s0) ->
  (forall s0, flushBatch hooks b (js_bitor flags fromBatch) s0 = BatchQueue_remove z s0) ->
  (forall b', b' ∈ l1 ++ l2 ++ l3 -> b' <> b ->
     flush_enqueues hooks (js_bitor flags fromBatch) b' []) ->
  (1 < fuel)%nat ->
  exists t s',
    BatchQueue_process fromBatch hooks fuel flags s = (t, Done s') /\
    flushes t =
      map (fun x => (x, js_bitor flags fromBatch)) (l1 ++ a :: l2 ++ b :: l3) /\
    queue (batch_of s') = [].
Proof.
  intros Hq Ha Hab Hadd Hrem Hrest Hfuel. unfold BatchQueue_process.
  set (f := js_bitor flags fromBatch) in *.
  destruct fuel as [|[|n]]; try lia.
  set (g := fun b' : nat =>
              if decide (b' = a) then fun l : list nat => l ++ [z]
              else if decide (b' = b) then remove_first z
              else fun l : list nat => l ++ []).
  destruct (flush_rounds_acts hooks f g (S n) s) as (t1 & s1 & H1 & Ht1 & Hb1).
  { rewrite Hq. by destruct l1. }
  { intros b' Hin. unfold g. destruct (decide (b' = a)) as [->|Hna].
    - by apply add_acts.
    - destruct (decide (b' = b)) as [->|Hnb]; [by apply remove_acts|].
      apply flush_enqueues_acts, Hrest; [|done].
      rewrite Hq in Hin. rewrite !elem_of_app. rewrite !elem_of_app in Hin.
      destruct Hin as [Hin|Hin]; [by left|].
      apply elem_of_cons in Hin as [->|Hin]; [done|].
      apply elem_of_app in Hin as [Hin|Hin]; [right; by left|].
      apply elem_of_cons in Hin as [->|Hin]; [done|]. right; by right. }
  assert (Hstep : forall l q, a ∉ l -> q = [] \/ q = [z] ->
            foldl (fun l0 b0 => g b0 l0) q l = [] \/
            foldl (fun l0 b0 => g b0 l0) q l = [z]).
  { induction l as [|x l IH]; intros q Hx Hqz; [done|]. simpl. apply IH.
    - intros Hin. apply Hx. by right.
    - unfold g. destruct (decide (x = a)) as [->|_].
      + exfalso. apply Hx. by left.
      + destruct (decide (x = b)) as [_|_].
        * destruct Hqz as [-> | ->]; simpl; [by left|].
          destruct (decide (z = z)); [by left|done].
        * by rewrite app_nil_r. }
  assert (Hnil : forall l, a ∉ l -> foldl (fun l0 b0 => g b0 l0) [] l = []).
  { induction l as [|x l IH]; intros Hx; [done|]. simpl.
    replace (g x []) with (@nil nat).
    - apply IH. intros Hin. apply Hx. by right.
    - unfold g. destruct (decide (x = a)) as [->|_].
      + exfalso. apply Hx. by left.
      + by destruct (decide (x = b)). }
  assert (Hend : foldl (fun l0 b0 => g b0 l0) [] (l1 ++ a :: l2 ++ b :: l3) = []).
  { rewrite foldl_app, Hnil by (intros Hin; apply Ha; apply elem_of_app; by left).
    cbn [foldl]. replace (g a []) with [z]
      by (unfold g; by destruct (decide (a = a))).
    rewrite foldl_app. cbn [foldl].
    assert (Hl2 : a ∉ l2).
    { intros Hin. apply Ha. rewrite !elem_of_app. right; by left. }
    assert (Hl3 : a ∉ l3).
    { intros Hin. apply Ha. rewrite !elem_of_app. right; by right. }
    replace (g b (foldl (fun l0 b0 => g b0 l0) [z] l2)) with (@nil nat); [by apply Hnil|].
    unfold g at 1. destruct (decide (b = a)) as [E|_]; [by symmetry in E|].
    destruct (decide (b = b)) as [_|]; [|done].
    destruct (Hstep l2 [z] Hl2 (or_intror eq_refl)) as [->| ->]; simpl; [done|].
    by destruct (decide (z = z)). }
  rewrite Hq, Hend in Hb1.
  rewrite (flush_rounds_done hooks f n s1) in H1 by (by rewrite Hb1).
  rewrite app_nil_r in H1. exists t1, s1.
  split; [done|]. split; [by rewrite Ht1, Hq|by rewrite Hb1].
Qed.

Lemma batch_add_cancelled_in_round_witness :
  exists t s',
    BatchQueue_process 2 add_remove_batch_hooks 3 1
      (with_batch (mkBatchQueue [1; 2; 3]%nat 0) new_World) = (t, Done s') /\
    flushes t =
      map (fun x => (x, js_bitor 1 2)) ([] ++ 1%nat :: [] ++ 2%nat :: [3%nat]) /\
    queue (batch_of s') = [].
Proof.
  apply (batch_add_cancelled_in_round 2 add_remove_batch_hooks 1 1%nat 2%nat 9%nat
           [] [] [3%nat] (with_batch (mkBatchQueue [1; 2; 3]%nat 0) new_World) 3).
  - reflexivity.
  - intros H. apply list_elem_of_singleton in H. discriminate H.
  - discriminate.
  - reflexivity.
  - reflexivity.
  - intros b' Hin Hne s0. exists [], s0.
    apply list_elem_of_singleton in Hin as ->.
    split; [reflexivity|]. split; [reflexivity|].
    rewrite app_nil_r. by destruct (batch_of s0).
  - lia.
Defined.

Lemma BatchQueue_add_each_queue xs : forall s,
  BatchQueue_add_each xs s =
    ([], Done (with_batch (set_queue (queue (batch_of s) ++ xs) (batch_of s)) s)).
Proof.
  induction xs as [|x xs IH]; intros s.
  - simpl. by rewrite app_nil_r, with_batch_same.
  - cbn [BatchQueue_add_each]. rewrite (andThen_silent _ _ s _ eq_refl), IH.
    rewrite batch_of_with_batch, with_batch_twice. simpl.
    by rewrite <- (assoc_L (++)).
Qed.

(** X19. [inline] of the batch queue around a run of [add] calls, at depth
    0 on an empty queue: the batchables added inside are all flushed before
    [inline] returns, in the order of the [add] calls, with the flags given
    to [inline] (or [LifecycleFlags.none]) combined with
    [LifecycleFlags.fromBatch]; [depth] is 0 again and the queue is empty. *)
Theorem batch_inline_adds_then_flushes none fromBatch hooks fuel flags xs s :
  depth_of BatchQ s = 0 ->
  queue (batch_of s) = [] ->
  (forall x, x ∈ xs ->
     flush_enqueues hooks (js_bitor (flags_or_none none flags) fromBatch) x []) ->
  (1 < fuel)%nat ->
  exists t s',
    inline none fromBatch hooks fuel BatchQ (BatchQueue_add_each xs) flags s
      = (t, Done s') /\
    flushes t = map (fun x => (x, js_bitor (flags_or_none none flags) fromBatch)) xs /\
    depth_of BatchQ s' = 0 /\
    queue (batch_of s') = [].
Proof.
  intros Hd Hq Hcb Hfuel. destruct fuel as [|[|n]]; try lia.
  unfold inline. rewrite (andThen_silent _ _ s _ eq_refl).
  rewrite (andThen_silent _ _ _ _ (BatchQueue_add_each_queue xs _)).
  rewrite end_outer.
  2: { rewrite Hd. reflexivity. }
  cbn [settle]. unfold BatchQueue_process.
  set (f := js_bitor (flags_or_none none flags) fromBatch) in *.
  set (s1 := with_depth BatchQ 0 _).
  assert (Hq1 : queue (batch_of s1) = xs).
  { unfold s1. simpl. by rewrite Hq. }
  assert (Hd1 : batch_depth (batch_of s1) = 0) by done.
  destruct xs as [|x xs'].
  { exists [], s1. rewrite flush_rounds_done by done. done. }
  destruct (flush_rounds_round hooks f (fun _ => []) (S n) s1) as (t1 & s2 & H1 & Ht1 & Hb1).
  { by rewrite Hq1. }
  { by rewrite Hq1. }
  rewrite (flush_rounds_done hooks f n s2) in H1
    by (rewrite Hb1; simpl; by rewrite concat_map_nil).
  rewrite app_nil_r in H1. exists t1, s2.
  split; [done|]. split; [by rewrite Ht1, Hq1|]. split.
  - simpl. by rewrite Hb1.
  - rewrite Hb1. simpl. by rewrite concat_map_nil.
Qed.

Lemma batch_inline_adds_then_flushes_witness :
  exists t s',
    inline 0 2 idle_hooks 3 BatchQ (BatchQueue_add_each [1; 2]%nat) (Some 1) new_World
      = (t, Done s') /\
    flushes t = map (fun x => (x, js_bitor (flags_or_none 0 (Some 1)) 2)) [1; 2]%nat /\
    depth_of BatchQ s' = 0 /\
    queue (batch_of s') = [].
Proof.
  apply (batch_inline_adds_then_flushes 0 2 idle_hooks 3 (Some 1) [1; 2]%nat new_World).
  - reflexivity.
  - reflexivity.
  - intros x _ s0. exists [], s0.
    split; [reflexivity|]. split; [reflexivity|].
    rewrite app_nil_r. by destruct (batch_of s0).
  - lia.
Defined.

(** ** A callback that runs its own [inline] *)

(** X20. [depth] is 0 while [process] runs, so a callback that wraps its
    [add] in its own [inline] on the Bind (Unbind) queue being drained
    triggers a nested [process]: the added controller is called at once,
    with the flags of the nested [end], before the controllers that are
    still waiting in the snapshot (A, B, C queued, A adds D this way: A, D,
    B, C). *)
Theorem nested_inline_add_drained_at_once none fromBatch hooks hooks0 a p flags fl k
    l1 x l2 d s fuel :
  own_phase a = Some p -> render_phase a = None ->
  depth_of a s = 0 ->
  linked (queue_of p s) (l1 ++ x :: l2) ->
  d ∉ l1 ++ x :: l2 -> unlinked (queue_of p s) d ->
  (forall y, y ∈ l1 ++ l2 -> leaves_queue hooks p flags y) ->
  (forall s0, callback hooks p x flags s0 =
              inline none fromBatch hooks0 k a (add p d) fl s0) ->
  leaves_queue hooks0 p (flags_or_none none fl) d ->
  (1 < k)%nat ->
  (length l1 + length l2 + 2 < fuel)%nat ->
  exists t s',
    process hooks fuel p flags s = (t, Done s') /\
    calls p t =
      map (fun y => (y, flags)) l1 ++
      (x, flags) :: (d, flags_or_none none fl) :: map (fun y => (y, flags)) l2 /\
    head (queue_of p s') = None.
Proof.
  intros Hp Hrn Hd [[Hnd [Hseg _]] [Hh _]] Hdl Hdu Hcb Hx Hd0 Hk Hfuel.
  set (n := (fuel - length l1 - length l2 - 2)%nat).
  replace fuel with (S (length l1 + S (length l2 + n)))%nat by (unfold n; lia).
  destruct (process_reaches hooks p flags l1 x l2 s (S (length l2 + n)) Hh Hnd Hseg) as
    (t1 & s1 & Ht1 & Hpr & Hh1 & Htl1 & Hd1 & _ & Hf1).
  { intros z Hz. apply Hcb. apply elem_of_app. by left. }
  assert (Hout : forall z, z ∈ x :: l2 -> z ∉ l1).
  { intros z Hz Hz1. exact (NoDup_app_disjoint _ _ z Hnd Hz1 Hz). }
  assert (Hdl1 : d ∉ l1) by (intros Hin; apply Hdl; apply elem_of_app; by left).
  assert (Hdx : forall z, z ∈ x :: l2 -> z <> d).
  { intros z Hz ->. apply Hdl. apply elem_of_app. by right. }
  (* the callback of [x]: begin, add, end *)
  set (sb := with_depth a (depth_of a s1 + 1) s1).
  assert (Hds1 : depth_of a s1 = 0).
  { rewrite (own_phase_depth a p) by done. rewrite Hd1.
    by rewrite <- (own_phase_depth a p). }
  assert (Hqb : queue_of p sb = set_depth 1 (queue_of p s1)).
  { unfold sb. rewrite Hds1. rewrite (own_phase_with_depth a p) by done.
    by rewrite queue_of_with_queue. }
  destruct (q_add_linked (queue_of p sb) [] d) as (q1 & Eq1 & Hl1 & Hdq1 & Hfq1).
  { rewrite Hqb. by apply linked_nil. }
  { apply not_elem_of_nil. }
  { rewrite Hqb. unfold unlinked. simpl. destruct (Hf1 d Hdl1) as [-> ->]. done. }
  set (sc := with_queue p q1 sb).
  destruct (end_drains_own_frame none fromBatch hooks0 k a p fl [d] sc)
    as (tx & s2 & He & Htx & _ & Hh2 & Htl2 & Hf2).
  { done. }
  { rewrite (own_phase_depth a p) by done. unfold sc.
    rewrite queue_of_with_queue, Hdq1, Hqb. done. }
  { intros r Hr. rewrite Hrn in Hr. discriminate Hr. }
  { unfold sc. by rewrite queue_of_with_queue. }
  { intros c Hc. by apply list_elem_of_singleton in Hc as ->. }
  { simpl. lia. }
  assert (Hcx : callback hooks p x flags s1 = (tx, Done s2)).
  { rewrite Hx. unfold inline. rewrite (andThen_silent _ _ s1 _ eq_refl). fold sb.
    rewrite (andThen_silent _ _ sb sc); [done|]. unfold add. by rewrite Eq1. }
  assert (Hlinks : forall z, z ∈ x :: l2 ->
            next (queue_of p s2) !! z = next (queue_of p s) !! z).
  { intros z Hz. destruct (Hf2 z) as [-> _].
    { intros Hin. apply list_elem_of_singleton in Hin. by apply (Hdx z). }
    unfold sc. rewrite queue_of_with_queue.
    destruct (Hfq1 z) as [-> _]; [apply not_elem_of_nil|by apply Hdx|].
    rewrite Hqb. simpl. by apply Hf1, Hout. }
  apply seg_next_app in Hseg as [_ Hseg].
  assert (Hndx : NoDup (x :: l2)) by (by apply NoDup_app_r in Hnd).
  assert (Hnx : next (queue_of p s2) !! x = hd_error l2).
  { rewrite Hlinks by (by left). destruct Hseg as [-> _]. by destruct l2. }
  set (s3 := with_queue p (clear_links x (queue_of p s2)) s2).
  destruct (continue_leaves hooks p flags l2 s3 n) as (t3 & s4 & Hc3 & Ht3 & Hh4 & _ & _).
  { by apply NoDup_cons in Hndx as [_ H]. }
  { unfold s3. rewrite queue_of_with_queue.
    apply (seg_next_frame (next (queue_of p s))); [|by destruct Hseg as [_ H]].
    intros z Hz. simpl. rewrite lookup_delete_ne.
    - apply Hlinks. by right.
    - intros ->. by apply NoDup_cons in Hndx as [H _]. }
  { intros z Hz. apply Hcb. apply elem_of_app. by right. }
  assert (Hh3 : head (queue_of p s4) = None).
  { rewrite Hh4. unfold s3. by rewrite queue_of_with_queue. }
  assert (Hw : walk hooks (S (length l2 + n)) p flags x s1 =
               (Called p x flags :: tx ++ t3, Done s4)).
  { rewrite (walk_after_callback hooks p flags x l2 s1 tx s2 (length l2 + n) Hcx Hnx).
    fold s3. by rewrite Hc3. }
  exists (t1 ++ Called p x flags :: tx ++ t3), s4. split; [|split; [|done]].
  - rewrite Hpr. unfold andThen. rewrite Hw.
    replace (length l1 + S (length l2 + n))%nat with (S (length l1 + (length l2 + n)))%nat by lia.
    rewrite process_done by done. by rewrite app_nil_r.
  - rewrite calls_app, Ht1. simpl. rewrite decide_True by done.
    by rewrite calls_app, Htx, Ht3.
Qed.

Lemma nested_inline_add_drained_at_once_witness :
  exists t s',
    process nested_hooks 6 Bound 5 abc_queued = (t, Done s') /\
    calls Bound t =
      map (fun y => (y, 5)) [] ++
      (1%nat, 5) :: (4%nat, flags_or_none 0 None) :: map (fun y => (y, 5)) [2; 3]%nat /\
    head (queue_of Bound s') = None.
Proof.
  apply (nested_inline_add_drained_at_once 0 2 nested_hooks idle_hooks BoundQueue Bound 5
           None 3 [] 1%nat [2; 3]%nat 4%nat abc_queued 6).
  - reflexivity.
  - reflexivity.
  - reflexivity.
  - exact abc_queued_linked.
  - intros H. apply elem_of_cons in H as [H|H]; [discriminate H|].
    apply elem_of_cons in H as [H|H]; [discriminate H|].
    apply list_elem_of_singleton in H. discriminate H.
  - split; reflexivity.
  - intros y Hy s. apply elem_of_cons in Hy as [->|Hy];
      [|apply list_elem_of_singleton in Hy as ->]; by exists [], s.
  - reflexivity.
  - apply idle_hooks_leave.
  - lia.
  - simpl. lia.
Defined.
